(** * textlint: the lint and fix pipelines of [textlint-core.js] and the
    multi-target front end of [textlint-engine.js]

    The development embeds the two classes [TextlintCore] and
    [TextLintEngine] as pure functions over explicit values:

    - a JavaScript exception raised before a promise is returned is a
      [Throw] of the [Completion] type;
    - a bluebird promise is its final state, [Pending], [Fulfilled] or
      [Rejected];
    - the object [this.rules] is the association list of its own
      enumerable properties, in the order [Object.keys] lists them;
    - the arrays the fix pipeline shares between its steps
      ([applyingMessages], ...) are an explicit store threaded through
      the steps;
    - every Task a pipeline constructs is recorded in a log, so that
      statements about "every Task" quantify over that log.

    The collaborators whose code is outside [textlint-core.js] and
    [textlint-engine.js] (the Tasks, the processors, the fix resolver,
    [findFiles], Node's [path] and [fs]) are parameters of the sections.
    Those the pipelines call where an exception becomes the rejection of a
    promise ([postProcess], [applyFixes]) or ends a loop ([findFiles],
    [fs.writeFileSync]) may throw.

    [fixer/textlint-fixer.js], which reports and writes the results of a
    fix, is embedded in the module [Fixer], over a file system that is a
    parameter too. *)

From stdpp Require Import gmap strings list fin_maps pretty.
From Stdlib Require Import Ascii Permutation.

Local Open Scope string_scope.

(** ** JavaScript values, exceptions and promises *)

(** The exceptions the two files raise or pass on. *)
Inductive JsError : Type :=
| AssertionError (msg : string)
| TypeError (msg : string)
| Error (msg : string).

Global Instance JsError_eq_dec : EqDecision JsError.
Proof. solve_decision. Defined.

(** A synchronous call either returns or throws. *)
Inductive Completion (A : Type) : Type :=
| Return (a : A)
| Throw (e : JsError).
Arguments Return {A} a.
Arguments Throw {A} e.

(** The final state of a promise. *)
Inductive Promise (A : Type) : Type :=
| Pending
| Fulfilled (value : A)
| Rejected (reason : JsError).
Arguments Pending {A}.
Arguments Fulfilled {A} value.
Arguments Rejected {A} reason.

(** [resolve] and [reject] of the promise constructor: only the first call
    settles the promise. *)
Definition resolve {A} (v : A) (p : Promise A) : Promise A :=
  match p with Pending => Fulfilled v | _ => p end.

Definition reject {A} (e : JsError) (p : Promise A) : Promise A :=
  match p with Pending => Rejected e | _ => p end.

(** [promise.then(f)] where [f] maps the value to a plain value. *)
Definition then_value {A B} (p : Promise A) (f : A → B) : Promise B :=
  match p with
  | Pending => Pending
  | Fulfilled v => Fulfilled (f v)
  | Rejected e => Rejected e
  end.

(** A value that is [undefined], [null] or a string: the [filePath]
    argument of the pipelines and the [filePath] field of a post-process
    result. *)
Inductive JsPath : Type :=
| Undefined
| Null
| Str (s : string).

Global Instance JsPath_eq_dec : EqDecision JsPath.
Proof. solve_decision. Defined.

(** [v == null] *)
Definition is_nullish (v : JsPath) : bool :=
  match v with Undefined | Null => true | Str _ => false end.

(** Truthiness of such a value: of the strings only the empty one is falsy. *)
Definition truthy (v : JsPath) : bool :=
  match v with
  | Undefined | Null => false
  | Str s => negb (String.eqb s "")
  end.

(** ** Diagnostics *)

Record Fix : Type := mkFix {
  fix_start : nat;
  fix_end : nat;
  fix_text : string
}.

Record TextLintMessage : Type := mkMessage {
  ruleId : string;
  message : string;
  line : nat;
  column : nat;
  severity : nat;
  msg_fix : option Fix
}.

(** What a processor's [postProcess] returns: an object whose [filePath]
    may be absent and whose [messages] may be absent ([None]). The lint
    pipeline resolves with this same object. *)
Record TextLintResult : Type := mkResult {
  filePath : JsPath;
  messages : option (list TextLintMessage)
}.

(** [TextLintFixResult], the object [_fixProcess] resolves with. *)
Record TextLintFixResult : Type := mkFixResult {
  fr_filePath : JsPath;
  fr_output : string;
  fr_originalMessages : list TextLintMessage;
  fr_applyingMessages : list TextLintMessage;
  fr_remainingMessages : list TextLintMessage
}.

(** The object [SourceCodeFixer.applyFixes] returns. *)
Record Applied : Type := mkApplied {
  fixed : bool;
  output : string;
  ap_messages : list TextLintMessage;
  ap_applyingMessages : list TextLintMessage;
  ap_remainingMessages : list TextLintMessage
}.

(** "rule-name" : false disables a rule; any other value leaves it on. *)
Inductive RuleOption : Type :=
| OptFalse
| OptTrue
| OptObject (json : string).

Global Instance RuleOption_eq_dec : EqDecision RuleOption.
Proof. solve_decision. Defined.

(** ** The Task protocol *)

(** How a Task run ends. *)
Inductive TaskEnd : Type :=
| Done
| Failure (error : JsError)
| Stalled.

Record TaskRun : Type := mkRun {
  emitted : list TextLintMessage;
  ending : TaskEnd
}.

(** The three events of [CoreTask.events] the pipelines listen to. *)
Inductive TaskEvent : Type :=
| EvMessage (m : TextLintMessage)
| EvError (e : JsError)
| EvComplete.

(** Modelled from the spec: the Rule Execution Task
    ([task/textlint-core-task], [task/linter-task] and [task/fixer-task]
    are not under src/). A run emits its diagnostics in order, then either
    one failure, which is terminal, or one done; a stalled run emits
    neither. *)
Definition task_events (run : TaskRun) : list TaskEvent :=
  (EvMessage <$> emitted run) ++
  match ending run with
  | Done => [EvComplete]
  | Failure e => [EvError e]
  | Stalled => []
  end.

(** ** textlint-core.js *)

Module Core.
Section WithCollaborators.

(** The parsed tree is an opaque handle of the processor, the configuration
    an opaque object, a rule creator an opaque function. *)
Context {AST Config RuleCreator : Type}.

(** A rule module: its linter and, when it declares fixer capability, its
    fixer ([typeof rule.fixer !== "undefined"]). *)
Record Rule : Type := mkRule {
  linter : RuleCreator;
  fixer : option RuleCreator
}.

(** What [processor.processor(ext)] returns. [postProcess] is called in
    the handlers of the [complete] event, where what it throws is not lost:
    it returns or throws. *)
Record ProcessorFns : Type := mkFns {
  preProcess : string → JsPath → AST;
  postProcess : list TextLintMessage → JsPath → Completion TextLintResult
}.

(** A processor instance with the static [availableExtensions()] of its
    class. *)
Record Processor : Type := mkProcessor {
  availableExtensions : list string;
  processor : string → ProcessorFns
}.

Record SourceCode : Type := mkSourceCode {
  sc_text : string;
  sc_ast : AST;
  sc_ext : string;
  sc_filePath : JsPath
}.

(** The argument object of [new LinterTask({...})] and
    [new FixerTask({...})]. *)
Record TaskArgs : Type := mkTask {
  t_config : Config;
  t_rules : list (string * Rule);
  t_rulesConfig : gmap string RuleOption;
  t_sourceCode : SourceCode
}.

Record TextlintCore : Type := mkCore {
  config : Config;
  rules : list (string * Rule);
  rulesConfig : gmap string RuleOption;
  processors : list Processor
}.

(** The classes of [textlint-plugin-markdown] and [textlint-plugin-text]. *)
Variable MarkdownProcessor TextProcessor : Config → Processor.

(** The run of a [LinterTask] and of a [FixerTask] over the tree of its
    source code, started by [task.process(ast)]. *)
Variable LinterTask_process : TaskArgs → TaskRun.
Variable FixerTask_process : TaskArgs → TaskRun.

(** [SourceCodeFixer.applyFixes(sourceCode, messages)], the fix resolver,
    which returns or throws (it is handed whatever [messages] the
    post-process result has, an absent one too). *)
Variable applyFixes :
  SourceCode → option (list TextLintMessage) → Completion Applied.

(** [path.resolve(process.cwd(), p)], [path.extname] and
    [fs.readFileSync(p, "utf-8")]. *)
Variable path_resolve : string → string.
Variable path_extname : string → string.
Variable readFileSync : string → Completion string.

(** [constructor(config)] *)
Definition new_TextlintCore (cfg : Config) : TextlintCore :=
  {| config := cfg;
     rules := [];
     rulesConfig := ∅;
     processors := [MarkdownProcessor cfg; TextProcessor cfg] |}.

(** [addProcessor(Processor)]: [this.processors.unshift(new Processor(this.config))] *)
Definition addProcessor (P : Config → Processor) (core : TextlintCore) : TextlintCore :=
  {| config := config core;
     rules := rules core;
     rulesConfig := rulesConfig core;
     processors := P (config core) :: processors core |}.

(** [ruleConfig !== false] for [ruleConfig = rulesConfig && rulesConfig[key]] *)
Definition rule_enabled (cfg : gmap string RuleOption) (key : string) : bool :=
  match cfg !! key with
  | Some OptFalse => false
  | _ => true
  end.

(** [ignoreDisableRules]: the enabled rules, copied key by key into a fresh
    object, which keeps the order of the keys. [assertRuleShape] has nothing
    to reject: an entry is a [Rule] by its type. *)
Definition ignoreDisableRules (cfg : gmap string RuleOption)
    (rs : list (string * Rule)) : list (string * Rule) :=
  filter (λ kr, rule_enabled cfg kr.1 = true) rs.

(** [setupRules(rules, rulesConfig)] *)
Definition setupRules (rs : list (string * Rule)) (cfg : gmap string RuleOption)
    (core : TextlintCore) : TextlintCore :=
  {| config := config core;
     rules := ignoreDisableRules cfg rs;
     rulesConfig := cfg;
     processors := processors core |}.

(** [resetRules()], whose body is the comment "noop". *)
Definition resetRules (core : TextlintCore) : TextlintCore := core.

(** Modelled from the spec: [getProcessorMatchExtension] of
    [util/proccesor-helper], which is not under src/. It selects the first
    processor of the list whose declared extension set contains the
    extension, and nothing ([null]) if none does. *)
Definition getProcessorMatchExtension (ps : list Processor) (ext : string)
    : option Processor :=
  List.find (λ p, bool_decide (ext ∈ availableExtensions p)) ps.

(** *** The lint pipeline *)

(** The state the handlers of [_lintByProcessor] act on: the local array
    [messages] and the promise. *)
Record LintState : Type := mkLintState {
  l_messages : list TextLintMessage;
  l_promise : Promise TextLintResult
}.

(** [assert(result.filePath && result.messages.length >= 0, ...)].
    A falsy [filePath] fails the assertion before [messages] is read;
    reading [length] of an absent [messages] raises a TypeError; the length
    of an array is never negative. *)
Definition assert_result (result : TextLintResult) : Completion TextLintResult :=
  if truthy (filePath result) then
    match messages result with
    | Some _ => Return result
    | None => Throw (TypeError "Cannot read property 'length' of undefined")
    end
  else Throw (AssertionError "postProcess should return { messages, filePath } ").

(** The [complete] handler from the result of [postProcess] up to
    [resolve(result)]: the placeholder for an absent [filePath], then the
    assertion. *)
Definition lint_finish (ext : string) (result : TextLintResult)
    : Completion TextLintResult :=
  let result :=
    if is_nullish (filePath result)
    then {| filePath := Str ("<Unkown" ++ ext ++ ">"); messages := messages result |}
    else result in
  assert_result result.

(** The [complete] handler up to [resolve(result)], on the diagnostics
    collected: [postProcess(messages, filePath)], then the placeholder and
    the assertion. *)
Definition lint_complete (fns : ProcessorFns) (ext : string) (fp : JsPath)
    (msgs : list TextLintMessage) : Completion TextLintResult :=
  match postProcess fns msgs fp with
  | Throw e => Throw e
  | Return result => lint_finish ext result
  end.

(** [resolve(result)] at the end of the [complete] handler. An exception
    that leaves the handler before that is not lost: it is raised into the
    Task, which emitted the event under [task.process(ast)], and comes out
    as the rejection of the pipeline's promise with that exception. *)
Definition lint_settle (st : LintState) (c : Completion TextLintResult) : LintState :=
  match c with
  | Return result =>
      {| l_messages := l_messages st;
         l_promise := resolve result (l_promise st) |}
  | Throw e =>
      {| l_messages := l_messages st;
         l_promise := reject e (l_promise st) |}
  end.

(** One event delivered to the three handlers. *)
Definition lint_handle (fns : ProcessorFns) (ext : string) (fp : JsPath)
    (st : LintState) (ev : TaskEvent) : LintState :=
  match ev with
  | EvMessage m =>
      {| l_messages := l_messages st ++ [m];
         l_promise := l_promise st |}
  | EvError e =>
      {| l_messages := l_messages st;
         l_promise := reject e (l_promise st) |}
  | EvComplete =>
      lint_settle st (lint_complete fns ext fp (l_messages st))
  end.

(** The Task of the lint pipeline, over the source code of [text] and its
    tree [ast]. *)
Definition lint_task (core : TextlintCore) (ast : AST) (text ext : string)
    (fp : JsPath) : TaskArgs :=
  {| t_config := config core;
     t_rules := rules core;
     t_rulesConfig := rulesConfig core;
     t_sourceCode :=
       {| sc_text := text; sc_ast := ast; sc_ext := ext; sc_filePath := fp |} |}.

(** The state when the handlers are registered. *)
Definition lint_init : LintState :=
  {| l_messages := []; l_promise := Pending |}.

(** What one call of a pipeline leaves behind: the promise it returned and
    the Tasks it constructed, in order. *)
Record Run (A : Type) : Type := mkRunOf {
  promise : Promise A;
  tasks : list TaskArgs
}.
Arguments promise {A} _.
Arguments tasks {A} _.

(** [_lintByProcessor(processor, text, ext, filePath)]. The assertion on
    the types of [preProcess] and [postProcess] cannot fail here: the record
    [ProcessorFns] holds two functions. *)
Definition _lintByProcessor (core : TextlintCore) (p : option Processor)
    (text ext : string) (fp : JsPath) : Completion (Run TextLintResult) :=
  match p with
  | None => Throw (AssertionError ("processor is not found for " ++ ext))
  | Some p =>
      let fns := processor p ext in
      let ast := preProcess fns text fp in
      let task := lint_task core ast text ext fp in
      let st :=
        foldl (lint_handle fns ext fp) lint_init
              (task_events (LinterTask_process task)) in
      Return {| promise := l_promise st;
                tasks := [task] |}
  end.

(** [lintText(text, ext)]; the default [".txt"] of [ext] is the caller's. *)
Definition lintText (core : TextlintCore) (text ext : string)
    : Completion (Run TextLintResult) :=
  let p := getProcessorMatchExtension (processors core) ext in
  _lintByProcessor core p text ext Undefined.

(** [lintMarkdown(text)] *)
Definition lintMarkdown (core : TextlintCore) (text : string)
    : Completion (Run TextLintResult) :=
  let ext := ".md" in
  let p := getProcessorMatchExtension (processors core) ext in
  _lintByProcessor core p text ext Undefined.

(** [lintFile(filePath)] *)
Definition lintFile (core : TextlintCore) (file : string)
    : Completion (Run TextLintResult) :=
  let absoluteFilePath := path_resolve file in
  let ext := path_extname absoluteFilePath in
  match readFileSync absoluteFilePath with
  | Throw e => Throw e
  | Return text =>
      let p := getProcessorMatchExtension (processors core) ext in
      _lintByProcessor core p text ext (Str absoluteFilePath)
  end.

(** *** The fix pipeline *)

(** [fixerRules]: the entries of [this.rules], in the order of
    [Object.keys], that carry a [fixer]. *)
Definition fixerRules (core : TextlintCore) : list (string * Rule) :=
  filter (λ kr, is_Some (fixer kr.2)) (rules core).

(** The variables of [_fixProcess] its steps share: [resultFilePath] and
    the three accumulating arrays. *)
Record FixShared : Type := mkShared {
  resultFilePath : JsPath;
  applyingMessages : list TextLintMessage;
  remainingMessages : list TextLintMessage;
  originalMessages : list TextLintMessage
}.

(** The state the handlers of one step act on. *)
Record FixState : Type := mkFixState {
  f_messages : list TextLintMessage;
  f_promise : Promise string;
  f_shared : FixShared
}.

(** [resultFilePath = result.filePath] *)
Definition assign_resultFilePath (sh : FixShared) (post : TextLintResult)
    : FixShared :=
  {| resultFilePath := filePath post;
     applyingMessages := applyingMessages sh;
     remainingMessages := remainingMessages sh;
     originalMessages := originalMessages sh |}.

(** The shared variables after the [complete] handler of a step ran to
    its end: the path of the post-process result [post], and the three
    arrays with the resolver's lists pushed onto them. *)
Definition pushed (sh : FixShared) (post : TextLintResult) (applied : Applied)
    : FixShared :=
  {| resultFilePath := filePath post;
     applyingMessages := applyingMessages sh ++ ap_applyingMessages applied;
     remainingMessages := remainingMessages sh ++ ap_remainingMessages applied;
     originalMessages := originalMessages sh ++ ap_messages applied |}.

(** The text a completed step resolves with. *)
Definition step_output (applied : Applied) (sourceText : string) : string :=
  if fixed applied then output applied else sourceText.

(** One event delivered to the three handlers of a step. As in the lint
    pipeline, an exception that leaves the [complete] handler (from
    [postProcess] or from [applyFixes], both called before [resolve])
    rejects the promise of the step; [resultFilePath] is assigned between
    the two calls. *)
Definition fix_handle (fns : ProcessorFns) (fp : JsPath)
    (newSourceCode : SourceCode) (sourceText : string)
    (st : FixState) (ev : TaskEvent) : FixState :=
  match ev with
  | EvMessage m =>
      {| f_messages := f_messages st ++ [m];
         f_promise := f_promise st; f_shared := f_shared st |}
  | EvError e =>
      {| f_messages := f_messages st;
         f_promise := reject e (f_promise st); f_shared := f_shared st |}
  | EvComplete =>
      match postProcess fns (f_messages st) fp with
      | Throw e =>
          {| f_messages := f_messages st;
             f_promise := reject e (f_promise st); f_shared := f_shared st |}
      | Return result =>
          match applyFixes newSourceCode (messages result) with
          | Throw e =>
              {| f_messages := f_messages st;
                 f_promise := reject e (f_promise st);
                 f_shared := assign_resultFilePath (f_shared st) result |}
          | Return applied =>
              {| f_messages := f_messages st;
                 f_promise := resolve (step_output applied sourceText) (f_promise st);
                 f_shared := pushed (f_shared st) result applied |}
          end
      end
  end.

(** What the [complete] handler of a step gets from its two collaborators
    on the diagnostics [msgs]: the post-process result and the resolver's
    answer to its messages, or what one of the two throws. *)
Definition step_applied (fns : ProcessorFns) (fp : JsPath)
    (newSourceCode : SourceCode) (msgs : list TextLintMessage)
    : Completion (TextLintResult * Applied) :=
  match postProcess fns msgs fp with
  | Throw e => Throw e
  | Return result =>
      match applyFixes newSourceCode (messages result) with
      | Throw e => Throw e
      | Return applied => Return (result, applied)
      end
  end.

(** The source code and the Task a step builds for [sourceText]; the rule
    set of the Task is the object with the one entry [kr], the pair of
    [ruleName] and [rule]. *)
Definition step_sourceCode (fns : ProcessorFns) (ext : string) (fp : JsPath)
    (sourceText : string) : SourceCode :=
  {| sc_text := sourceText;
     sc_ast := preProcess fns sourceText Undefined;
     sc_filePath := fp;
     sc_ext := ext |}.

Definition step_task (core : TextlintCore) (fns : ProcessorFns) (ext : string)
    (fp : JsPath) (kr : string * Rule) (sourceText : string) : TaskArgs :=
  {| t_config := config core;
     t_rules := [kr];
     t_rulesConfig := rulesConfig core;
     t_sourceCode := step_sourceCode fns ext fp sourceText |}.

(** An element of [fixerProcessList], called with [sourceText]. *)
Definition fixerProcess (core : TextlintCore) (fns : ProcessorFns) (ext : string)
    (fp : JsPath) (kr : string * Rule) (sourceText : string) (sh : FixShared)
    : FixState * TaskArgs :=
  let newSourceCode := step_sourceCode fns ext fp sourceText in
  let task := step_task core fns ext fp kr sourceText in
  (foldl (fix_handle fns fp newSourceCode sourceText)
         {| f_messages := []; f_promise := Pending; f_shared := sh |}
         (task_events (FixerTask_process task)),
   task).

(** The accumulator of the [reduce]: the promise so far, with the shared
    variables and the Tasks constructed up to it. *)
Record FixFold : Type := mkFold {
  ff_promise : Promise string;
  ff_shared : FixShared;
  ff_tasks : list TaskArgs
}.

(** [promise.then(sourceText => fixerProcess(sourceText))]: the step runs
    only once the promise before it is fulfilled. *)
Definition then_fixerProcess (core : TextlintCore) (fns : ProcessorFns)
    (ext : string) (fp : JsPath) (acc : FixFold) (kr : string * Rule) : FixFold :=
  match ff_promise acc with
  | Fulfilled sourceText =>
      let '(st, task) := fixerProcess core fns ext fp kr sourceText (ff_shared acc) in
      {| ff_promise := f_promise st;
         ff_shared := f_shared st;
         ff_tasks := ff_tasks acc ++ [task] |}
  | _ => acc
  end.

(** The accumulator the [reduce] starts from: [Promise.resolve(text)] and
    the shared variables as declared. *)
Definition fix_init (fp : JsPath) (text : string) : FixFold :=
  {| ff_promise := Fulfilled text;
     ff_shared := {| resultFilePath := fp; applyingMessages := [];
                     remainingMessages := []; originalMessages := [] |};
     ff_tasks := [] |}.

(** The [reduce] over the steps of the rules [l]. *)
Definition reduce_fixers (core : TextlintCore) (fns : ProcessorFns) (ext : string)
    (fp : JsPath) (text : string) (l : list (string * Rule)) : FixFold :=
  foldl (then_fixerProcess core fns ext fp) (fix_init fp text) l.

(** [fixerProcessList.reduce(..., Promise.resolve(text))] *)
Definition promiseTask (core : TextlintCore) (fns : ProcessorFns) (ext : string)
    (fp : JsPath) (text : string) : FixFold :=
  reduce_fixers core fns ext fp text (fixerRules core).

(** [_fixProcess(processor, text, ext, filePath)]. Nothing checks
    [processor] before [processor.processor(ext)] reads it. *)
Definition _fixProcess (core : TextlintCore) (p : option Processor)
    (text ext : string) (fp : JsPath) : Completion (Run TextLintFixResult) :=
  match p with
  | None => Throw (TypeError "Cannot read property 'processor' of null")
  | Some p =>
      let fns := processor p ext in
      let acc := promiseTask core fns ext fp text in
      let sh := ff_shared acc in
      Return {| promise :=
                  then_value (ff_promise acc) (λ output,
                    {| fr_filePath := resultFilePath sh;
                       fr_output := output;
                       fr_originalMessages := originalMessages sh;
                       fr_applyingMessages := applyingMessages sh;
                       fr_remainingMessages := remainingMessages sh |});
                tasks := ff_tasks acc |}
  end.

(** [fixFile(filePath)]: the path is passed on as given, not resolved. *)
Definition fixFile (core : TextlintCore) (file : string)
    : Completion (Run TextLintFixResult) :=
  let absoluteFilePath := path_resolve file in
  let ext := path_extname absoluteFilePath in
  match readFileSync absoluteFilePath with
  | Throw e => Throw e
  | Return text =>
      let p := getProcessorMatchExtension (processors core) ext in
      _fixProcess core p text ext (Str file)
  end.

(** [fixText(text, ext)] *)
Definition fixText (core : TextlintCore) (text ext : string)
    : Completion (Run TextLintFixResult) :=
  let p := getProcessorMatchExtension (processors core) ext in
  _fixProcess core p text ext Undefined.

End WithCollaborators.

Arguments Run {AST Config RuleCreator} A.
Arguments mkRunOf {AST Config RuleCreator A} _ _.
Arguments promise {AST Config RuleCreator A} _.
Arguments tasks {AST Config RuleCreator A} _.

End Core.

(** ** bluebird's [Promise.all] *)

(** The bookkeeping of [Promise.all(promises)]: the array of values, with
    holes where no value arrived yet, the number of fulfilments seen, and
    the promise it returned. *)
Record AllState (A : Type) : Type := mkAll {
  all_values : list (option A);
  all_resolved : nat;
  all_promise : Promise (list (option A))
}.
Arguments mkAll {A} _ _ _.
Arguments all_values {A} _.
Arguments all_resolved {A} _.
Arguments all_promise {A} _.

(** The promise at index [i] settles. A fulfilment stores the value at [i]
    and resolves the whole once as many fulfilments as promises were seen;
    a rejection rejects the whole; a promise that stays pending never
    reports. *)
Definition all_settle {A} (ps : list (Promise A)) (st : AllState A) (i : nat)
    : AllState A :=
  match ps !! i with
  | Some (Fulfilled v) =>
      let vs := <[i := Some v]> (all_values st) in
      let n := S (all_resolved st) in
      {| all_values := vs;
         all_resolved := n;
         all_promise :=
           if decide (length ps ≤ n)%nat then resolve vs (all_promise st)
           else all_promise st |}
  | Some (Rejected e) =>
      {| all_values := all_values st;
         all_resolved := all_resolved st;
         all_promise := reject e (all_promise st) |}
  | _ => st
  end.

Definition all_init {A} (ps : list (Promise A)) : AllState A :=
  {| all_values := replicate (length ps) None;
     all_resolved := 0;
     all_promise := match ps with [] => Fulfilled [] | _ => Pending end |}.

(** [Promise.all(ps)] when the promises settle in the order [order] (a list
    of indices into [ps]). *)
Definition Promise_all {A} (ps : list (Promise A)) (order : list nat)
    : Promise (list (option A)) :=
  all_promise (foldl (all_settle ps) (all_init ps) order).

(** Whether the promise at index [i] is fulfilled. *)
Definition fulfilled_at {A} (ps : list (Promise A)) (i : nat) : bool :=
  match ps !! i with
  | Some (Fulfilled _) => true
  | _ => false
  end.

(** [array.map(f)] for a callback that may throw: the first exception ends
    the loop. *)
Fixpoint map_throwing {A B} (f : A → Completion B) (l : list A)
    : Completion (list B) :=
  match l with
  | [] => Return []
  | x :: l' =>
      match f x with
      | Throw e => Throw e
      | Return y =>
          match map_throwing f l' with
          | Throw e => Throw e
          | Return ys => Return (y :: ys)
          end
      end
  end.

(** ** textlint-engine.js *)

Module Engine.
Section WithCollaborators.

Context {AST Config RuleCreator : Type}.

Abbreviation TextlintCore := (@Core.TextlintCore AST Config RuleCreator).
Abbreviation TaskArgs := (@Core.TaskArgs AST Config RuleCreator).
Abbreviation SourceCode := (@Core.SourceCode AST).
Abbreviation Run := (@Core.Run AST Config RuleCreator).

Variable LinterTask_process : TaskArgs → TaskRun.
Variable FixerTask_process : TaskArgs → TaskRun.
Variable applyFixes :
  SourceCode → option (list TextLintMessage) → Completion Applied.
Variable path_resolve : string → string.
Variable path_extname : string → string.
Variable readFileSync : string → Completion string.

(** [findFiles(files, availableExtensions)] of [util/find-util], which
    looks the files up in the file system: it returns the targets or
    throws. *)
Variable findFiles : list string → list string → Completion (list string).

(** The fields of the engine the four operations read. *)
Record TextLintEngine : Type := mkEngine {
  textLint : TextlintCore;
  availableExtensions : list string
}.

(** The [reduce] of the constructor: the extensions of the configuration,
    then those of every processor in the order of [processors]. *)
Definition collect_availableExtensions (core : TextlintCore)
    (extensions : list string) : list string :=
  foldl (λ acc p, (acc ++ Core.availableExtensions p)%list) extensions
        (Core.processors core).

(** [ext[0] === "."] *)
Definition starts_with_dot (ext : string) : bool :=
  match ext with
  | String c _ => Ascii.eqb c "."%char
  | EmptyString => false
  end.

(** [ext[0] === "." ? ext : path.extname(ext)] *)
Definition actualExt (ext : string) : string :=
  if starts_with_dot ext then ext else path_extname ext.

Definition should_specify : string :=
  "should specify the extension." ++ String "010" "ex) .md".

(** [promise.then(result => [result])] on a run. *)
Definition in_singleton {A} (c : Completion (Run A)) : Completion (Run (list A)) :=
  match c with
  | Throw e => Throw e
  | Return run =>
      Return {| Core.promise := then_value (Core.promise run) (λ result, [result]);
                Core.tasks := Core.tasks run |}
  end.

(** [executeOnText(text, ext)]; the default [".txt"] of [ext] is the
    caller's. *)
Definition executeOnText (eng : TextLintEngine) (text ext : string)
    : Completion (Run (list TextLintResult)) :=
  if decide (String.length (actualExt ext) = 0) then Throw (Error should_specify)
  else in_singleton (Core.lintText LinterTask_process (textLint eng) text (actualExt ext)).

(** [fixText(text, ext)] *)
Definition fixText (eng : TextLintEngine) (text ext : string)
    : Completion (Run (list TextLintFixResult)) :=
  if decide (String.length (actualExt ext) = 0) then Throw (Error should_specify)
  else in_singleton
         (Core.fixText FixerTask_process applyFixes (textLint eng) text (actualExt ext)).

(** The array [results] of [executeOnFiles], one pipeline per target. *)
Definition lint_results (eng : TextLintEngine) (files : list string)
    : Completion (list (Run TextLintResult)) :=
  match findFiles files (availableExtensions eng) with
  | Throw e => Throw e
  | Return targetFiles =>
      map_throwing
        (Core.lintFile LinterTask_process path_resolve path_extname readFileSync
                       (textLint eng))
        targetFiles
  end.

(** [executeOnFiles(files)], when the pipelines settle in the order
    [order]. *)
Definition executeOnFiles (eng : TextLintEngine) (files : list string)
    (order : list nat) : Completion (Promise (list (option TextLintResult))) :=
  match lint_results eng files with
  | Throw e => Throw e
  | Return results => Return (Promise_all (Core.promise <$> results) order)
  end.

(** The array [results] of [fixFiles]. *)
Definition fix_results (eng : TextLintEngine) (files : list string)
    : Completion (list (Run TextLintFixResult)) :=
  match findFiles files (availableExtensions eng) with
  | Throw e => Throw e
  | Return targetFiles =>
      map_throwing
        (Core.fixFile FixerTask_process applyFixes path_resolve path_extname
                      readFileSync (textLint eng))
        targetFiles
  end.

(** [fixFiles(files)], when the pipelines settle in the order [order]. *)
Definition fixFiles (eng : TextLintEngine) (files : list string)
    (order : list nat) : Completion (Promise (list (option TextLintFixResult))) :=
  match fix_results eng files with
  | Throw e => Throw e
  | Return results => Return (Promise_all (Core.promise <$> results) order)
  end.

(** [isErrorMessage(message)]: [message.severity === 2] *)
Definition isErrorMessage (m : TextLintMessage) : bool :=
  Nat.eqb (severity m) 2.

(** [isErrorResults(results)]: [some] over the results of [some] over the
    messages of each. It stops at the first result with an error message;
    reading [some] off the absent [messages] of a result it gets to raises a
    TypeError. *)
Fixpoint isErrorResults (results : list TextLintResult) : Completion bool :=
  match results with
  | [] => Return false
  | result :: rest =>
      match messages result with
      | None => Throw (TypeError "Cannot read property 'some' of undefined")
      | Some ms =>
          if existsb isErrorMessage ms then Return true else isErrorResults rest
      end
  end.

(** The array a fulfilled [executeOnFiles] hands on, without its holes,
    which [some] and [forEach] skip. *)
Definition filled {A} (vs : list (option A)) : list A := omap id vs.

End WithCollaborators.
End Engine.

(** ** fixer/textlint-fixer.js *)

Module Fixer.
Section WithFileSystem.

(** [message.fatal], a property the record of a diagnostic does not list. *)
Variable fatal : TextLintMessage → bool.

(** The file system: its states, and what writing [data] to the file at a
    path that is a string does in a state: the state it leaves and the
    exception it throws, if any (a directory that does not exist, a file
    that may not be written, ...). *)
Variable FS : Type.
Variable fs_write : FS → string → string → FS * option JsError.

(** [fs.writeFileSync(path, data, "utf-8")]: a path that is no string is
    a TypeError, before the file system is touched. *)
Definition writeFileSync (fs : FS) (path : JsPath) (data : string)
    : FS * option JsError :=
  match path with
  | Str p => fs_write fs p data
  | _ => (fs, Some (TypeError "path must be a string or Buffer"))
  end.

(** [overWriteResult(result)] *)
Definition overWriteResult (result : TextLintFixResult) (fs : FS)
    : FS * option JsError :=
  let targetFilePath := fr_filePath result in
  let output := fr_output result in
  writeFileSync fs targetFilePath output.

(** [getMessageType(message)] *)
Definition getMessageType (m : TextLintMessage) : string :=
  if fatal m || Nat.eqb (severity m) 2 then "Error" else "Warning".

(** A value in a template literal. *)
Definition in_template (v : JsPath) : string :=
  match v with
  | Undefined => "undefined"
  | Null => "null"
  | Str s => s
  end.

Definition newline : string := String "010" "".

(** The body of the inner [forEach] of [format]: eight appends to
    [output]. A line or column is a number here, so [|| 0] changes
    nothing; an empty [ruleId] is falsy. *)
Definition format_message (result : TextLintFixResult) (output : string)
    (m : TextLintMessage) : string :=
  let output := output ++ "Fixed✔ " in
  let output := output ++ (in_template (fr_filePath result) ++ ": ") in
  let output := output ++ ("line " ++ pretty (line m)) in
  let output := output ++ (", col " ++ pretty (column m)) in
  let output := output ++ (", " ++ getMessageType m) in
  let output := output ++ (" - " ++ message m) in
  let output := output ++
    (if String.eqb (ruleId m) "" then "" else " (" ++ ruleId m ++ ")") in
  output ++ newline.

(** The body of the outer [forEach] of [format], on [output] and [total]. *)
Definition format_result (acc : string * nat) (result : TextLintFixResult)
    : string * nat :=
  let messages := fr_applyingMessages result in
  let total := (acc.2 + length messages)%nat in
  (foldl (format_message result) acc.1 messages, total).

(** [format(results)] *)
Definition format (results : list TextLintFixResult) : string :=
  let '(output, total) := foldl format_result ("", 0%nat) results in
  if decide (0 < total)%nat
  then output ++ (newline ++ newline ++ "Fixed " ++ pretty total ++ " problem" ++
                  (if decide (total ≠ 1) then "s" else ""))
  else output.

(** The [forEach] of [write]: the file system it leaves, and the exception
    that ended it, if any. *)
Fixpoint forEach_overWriteResult (results : list TextLintFixResult) (fs : FS)
    : FS * option JsError :=
  match results with
  | [] => (fs, None)
  | result :: rest =>
      match overWriteResult result fs with
      | (fs', Some e) => (fs', Some e)
      | (fs', None) => forEach_overWriteResult rest fs'
      end
  end.

(** [formatResults()] and [write()] of the class [TextLintFixer], on
    [this.results]. *)
Definition formatResults (results : list TextLintFixResult) : string :=
  format results.

Definition write (results : list TextLintFixResult) (fs : FS)
    : FS * Completion bool :=
  match forEach_overWriteResult results fs with
  | (fs', None) => (fs', Return true)
  | (fs', Some e) => (fs', Throw e)
  end.

(** The line [format] prints for one message of a result. *)
Definition line_of (result : TextLintFixResult) (m : TextLintMessage) : string :=
  format_message result "" m.

End WithFileSystem.
End Fixer.

(** ** Node's [path.extname] for POSIX paths *)

Module NodePath.

(** The variables of the loop of [extname]; [None] stands for [-1]. *)
Record ExtState : Type := mkExt {
  startDot : option nat;
  startPart : nat;
  endPart : option nat;
  matchedSlash : bool;
  preDotState : Z;
  stopped : bool
}.

(** One iteration of the loop, at index [ic.1] holding the character [ic.2];
    the loop runs from the last character to the first. *)
Definition ext_step (st : ExtState) (ic : nat * ascii) : ExtState :=
  let '(i, c) := ic in
  if stopped st then st
  else if Ascii.eqb c "/"%char then
    if matchedSlash st then st
    else mkExt (startDot st) (S i) (endPart st) (matchedSlash st) (preDotState st) true
  else
    let '(e, ms) :=
      match endPart st with
      | None => (Some (S i), false)
      | Some e => (Some e, matchedSlash st)
      end in
    if Ascii.eqb c "."%char then
      match startDot st with
      | None => mkExt (Some i) (startPart st) e ms (preDotState st) false
      | Some _ => mkExt (startDot st) (startPart st) e ms 1%Z false
      end
    else
      match startDot st with
      | None => mkExt None (startPart st) e ms (preDotState st) false
      | Some _ => mkExt (startDot st) (startPart st) e ms (-1)%Z false
      end.

(** [String.prototype.slice(from, to)] for [from ≤ to] within the string. *)
Definition slice (s : string) (from to : nat) : string :=
  String.substring from (to - from) s.

Definition extname (path : string) : string :=
  let chars := String.list_ascii_of_string path in
  let st :=
    foldl ext_step (mkExt None 0 None true 0%Z false)
          (reverse (zip (seq 0 (length chars)) chars)) in
  match startDot st, endPart st with
  | Some d, Some e =>
      if decide (preDotState st = 0%Z) then ""
      else if decide (preDotState st = 1%Z ∧ d = e - 1 ∧ d = S (startPart st))%nat then ""
      else slice path d e
  | _, _ => ""
  end.

End NodePath.

(** ** A plain-text setting to run the pipelines on

    The tree of a text is the text itself, and a rule creator is the
    function from the text to the run of its handlers. *)

Module Sample.

(** [text.slice(from, to)] *)
Definition text_slice (s : string) (from to : nat) : string :=
  String.substring from (to - from) s.

(** Insertion of a diagnostic by the start of its edit, before the
    diagnostics already there whose edit starts at the same offset. *)
Fixpoint insert_by_start (m : TextLintMessage * Fix) (l : list (TextLintMessage * Fix))
    : list (TextLintMessage * Fix) :=
  match l with
  | [] => [m]
  | x :: l' =>
      if decide (fix_start m.2 ≤ fix_start x.2)%nat then m :: x :: l'
      else x :: insert_by_start m l'
  end.

(** The stable sort by the start of the edit: the diagnostics are inserted
    from the last to the first, so that of two edits with the same start
    the one reported first comes first. *)
Definition sort_by_start (l : list (TextLintMessage * Fix)) : list (TextLintMessage * Fix) :=
  foldr insert_by_start [] l.

(** The walk over the sorted edits: cursor, output buffer, accepted and
    rejected diagnostics. *)
Fixpoint walk (text : string) (l : list (TextLintMessage * Fix))
    (cursor : nat) (buf : string) (applying remaining : list TextLintMessage)
    : nat * string * list TextLintMessage * list TextLintMessage :=
  match l with
  | [] => (cursor, buf, applying, remaining)
  | (m, f) :: l' =>
      if decide (fix_start f < cursor)%nat
      then walk text l' cursor buf applying (remaining ++ [m])
      else walk text l' (fix_end f)
                (buf ++ text_slice text cursor (fix_start f) ++ fix_text f)
                (applying ++ [m]) remaining
  end.

Definition with_fix (m : TextLintMessage) : option (TextLintMessage * Fix) :=
  match msg_fix m with Some f => Some (m, f) | None => None end.

(** Modelled from the spec: the Fix Resolver, [applyFixes] of
    [fixer/source-code-fixer], which is not under src/. Diagnostics without
    an edit remain; those with one are sorted by the start of the edit and
    accepted greedily from a cursor; the text changed when one was
    accepted. *)
Definition resolveFixes (text : string) (msgs : list TextLintMessage) : Applied :=
  let withFix := sort_by_start (omap with_fix msgs) in
  let withoutFix := filter (λ m, msg_fix m = None) msgs in
  let '(cursor, buf, applying, remaining) := walk text withFix 0 "" [] withoutFix in
  {| fixed := negb (bool_decide (applying = []));
     output := buf ++ text_slice text cursor (String.length text);
     ap_messages := msgs;
     ap_applyingMessages := applying;
     ap_remainingMessages := remaining |}.

(** A rule creator maps the text to the run of its handlers. *)
Definition Creator : Type := string → TaskRun.

(** The resolver on the messages of a post-process result; it reads a
    property of [messages] first, which throws when there is none. *)
Definition applyFixes (sc : @Core.SourceCode string) (msgs : option (list TextLintMessage))
    : Completion Applied :=
  match msgs with
  | Some msgs => Return (resolveFixes (Core.sc_text sc) msgs)
  | None => Throw (TypeError "Cannot read property 'slice' of undefined")
  end.

(** The runs of several rules over one text, one after the other: the
    diagnostics add up until a run does not end with [Done]. *)
Fixpoint run_all (runs : list TaskRun) : TaskRun :=
  match runs with
  | [] => mkRun [] Done
  | r :: rest =>
      match ending r with
      | Done => let r' := run_all rest in mkRun (emitted r ++ emitted r') (ending r')
      | _ => r
      end
  end.

Definition LinterTask_process (t : @Core.TaskArgs string unit Creator) : TaskRun :=
  run_all ((λ kr, Core.linter kr.2 (Core.sc_text (Core.t_sourceCode t))) <$> Core.t_rules t).

Definition FixerTask_process (t : @Core.TaskArgs string unit Creator) : TaskRun :=
  run_all ((λ kr, default (Core.linter kr.2) (Core.fixer kr.2)
                    (Core.sc_text (Core.t_sourceCode t))) <$> Core.t_rules t).

Definition path_to_field (fp : JsPath) (placeholder : string) : JsPath :=
  if truthy fp then fp else Str placeholder.

(** A processor for [.txt] that names in-memory text ["<text>"]. *)
Definition TextProcessor (_ : unit) : @Core.Processor string :=
  {| Core.availableExtensions := [".txt"; ".text"];
     Core.processor := λ _,
       {| Core.preProcess := λ text _, text;
          Core.postProcess := λ msgs fp,
            Return {| filePath := path_to_field fp "<text>"; messages := Some msgs |} |} |}.

(** A processor for the extensions of Markdown that names in-memory text
    ["<markdown>"]. *)
Definition MarkdownProcessor (_ : unit) : @Core.Processor string :=
  {| Core.availableExtensions :=
       [".md"; ".markdown"; ".mdown"; ".mkdn"; ".mkd"; ".mdwn"; ".mkdown"; ".ron"];
     Core.processor := λ _,
       {| Core.preProcess := λ text _, text;
          Core.postProcess := λ msgs fp,
            Return {| filePath := path_to_field fp "<markdown>";
                      messages := Some msgs |} |} |}.

(** A plugin's processor for [.log] that leaves the path as it got it. *)
Definition LogProcessor (_ : unit) : @Core.Processor string :=
  {| Core.availableExtensions := [".log"];
     Core.processor := λ _,
       {| Core.preProcess := λ text _, text;
          Core.postProcess := λ msgs fp,
            Return {| filePath := fp; messages := Some msgs |} |} |}.

(** A plugin's processor that claims [.md] and loses the messages. *)
Definition BrokenProcessor (_ : unit) : @Core.Processor string :=
  {| Core.availableExtensions := [".md"];
     Core.processor := λ _,
       {| Core.preProcess := λ text _, text;
          Core.postProcess := λ _ _,
            Return {| filePath := Str ""; messages := None |} |} |}.

(** A plugin's processor for [.md] whose [postProcess] throws. *)
Definition ThrowingProcessor (_ : unit) : @Core.Processor string :=
  {| Core.availableExtensions := [".md"];
     Core.processor := λ _,
       {| Core.preProcess := λ text _, text;
          Core.postProcess := λ _ _, Throw (Error "post") |} |}.

Definition report (rule text : string) (f : option Fix) : TextLintMessage :=
  {| ruleId := rule; message := text; line := 1; column := 1; severity := 2;
     msg_fix := f |}.

(** Reports a text that starts with "aa" and proposes "a" for it. *)
Definition no_double_a : Creator := λ text,
  if String.prefix "aa" text
  then mkRun [report "no-double-a" "doubled a" (Some (mkFix 0 2 "a"))] Done
  else mkRun [] Done.

(** Reports a text that starts with "b" and proposes "aa" for it. *)
Definition b_to_aa : Creator := λ text,
  if String.prefix "b" text
  then mkRun [report "b-to-aa" "b found" (Some (mkFix 0 1 "aa"))] Done
  else mkRun [] Done.

(** Reports every text, without an edit. *)
Definition always_warn : Creator := λ text,
  mkRun [report "always-warn" "seen" None] Done.

(** Throws on every text. *)
Definition crashing : Creator := λ text,
  mkRun [] (Failure (Error "boom")).

Definition rule_set : list (string * @Core.Rule Creator) :=
  [("no-double-a", Core.mkRule no_double_a (Some no_double_a));
   ("always-warn", Core.mkRule always_warn None);
   ("b-to-aa", Core.mkRule b_to_aa (Some b_to_aa))].

Definition core : @Core.TextlintCore string unit Creator :=
  Core.setupRules rule_set ∅ (Core.new_TextlintCore MarkdownProcessor TextProcessor ()).

Definition lint_only_core : @Core.TextlintCore string unit Creator :=
  Core.setupRules [("always-warn", Core.mkRule always_warn None)] ∅
                  (Core.new_TextlintCore MarkdownProcessor TextProcessor ()).

Definition crashing_core : @Core.TextlintCore string unit Creator :=
  Core.setupRules [("no-double-a", Core.mkRule no_double_a (Some no_double_a));
                   ("crashing", Core.mkRule crashing (Some crashing));
                   ("b-to-aa", Core.mkRule b_to_aa (Some b_to_aa))] ∅
                  (Core.new_TextlintCore MarkdownProcessor TextProcessor ()).

(** A file system with three files. *)
Definition readFileSync (p : string) : Completion string :=
  if String.eqb p "/cwd/a.txt" then Return "b"
  else if String.eqb p "/cwd/b.md" then Return "aab"
  else if String.eqb p "/cwd/c.xyz" then Return "zz"
  else Throw (Error ("ENOENT: no such file or directory, open '" ++ p ++ "'")).

(** [path.resolve("/cwd", p)] for a relative [p] without dots. *)
Definition path_resolve (p : string) : string := "/cwd/" ++ p.

(** A [findFiles] for files given by name, in a file system without
    directories: it throws at the first name that is no file, as the stat
    of it does, and returns the names before it and after it as they are;
    the extensions would select among the files of a directory. *)
Fixpoint findFiles (files exts : list string) : Completion (list string) :=
  match files with
  | [] => Return []
  | f :: rest =>
      match readFileSync (path_resolve f) with
      | Throw _ =>
          Throw (Error ("ENOENT: no such file or directory, stat '" ++ f ++ "'"))
      | Return _ =>
          match findFiles rest exts with
          | Throw e => Throw e
          | Return targets => Return (f :: targets)
          end
      end
  end.

Definition engine : @Engine.TextLintEngine string unit Creator :=
  {| Engine.textLint := core;
     Engine.availableExtensions := Engine.collect_availableExtensions core [] |}.

Definition crashing_engine : @Engine.TextLintEngine string unit Creator :=
  {| Engine.textLint := crashing_core;
     Engine.availableExtensions := Engine.collect_availableExtensions crashing_core [] |}.

Definition lint_only_engine : @Engine.TextLintEngine string unit Creator :=
  {| Engine.textLint := lint_only_core;
     Engine.availableExtensions := Engine.collect_availableExtensions lint_only_core [] |}.

(** The engine of a configuration that lists the extension [.xyz], which
    no processor declares. *)
Definition xyz_engine : @Engine.TextLintEngine string unit Creator :=
  {| Engine.textLint := core;
     Engine.availableExtensions := Engine.collect_availableExtensions core [".xyz"] |}.

(** The rules of [rule_set] with "always-warn" switched off. *)
Definition warn_off : gmap string RuleOption := {["always-warn" := OptFalse]}.

(** Two fix results for one path and one without a path. *)
Definition fixed_once : TextLintFixResult :=
  {| fr_filePath := Str "a.txt"; fr_output := "aa";
     fr_originalMessages := [report "b-to-aa" "b found" (Some (mkFix 0 1 "aa"))];
     fr_applyingMessages := [report "b-to-aa" "b found" (Some (mkFix 0 1 "aa"))];
     fr_remainingMessages := [] |}.

Definition fixed_again : TextLintFixResult :=
  {| fr_filePath := Str "a.txt"; fr_output := "a";
     fr_originalMessages := [report "no-double-a" "doubled a" (Some (mkFix 0 2 "a"))];
     fr_applyingMessages := [report "no-double-a" "doubled a" (Some (mkFix 0 2 "a"))];
     fr_remainingMessages := [] |}.

Definition fixed_nowhere : TextLintFixResult :=
  {| fr_filePath := Undefined; fr_output := "zz";
     fr_originalMessages := []; fr_applyingMessages := [];
     fr_remainingMessages := [] |}.

(** Never ends on a text that starts with "b". *)
Definition stalling : Creator := λ text,
  if String.prefix "b" text then mkRun [] Stalled else mkRun [] Done.

Definition stalling_core : @Core.TextlintCore string unit Creator :=
  Core.setupRules [("stalling", Core.mkRule stalling (Some stalling))] ∅
                  (Core.new_TextlintCore MarkdownProcessor TextProcessor ()).

Definition stalling_engine : @Engine.TextLintEngine string unit Creator :=
  {| Engine.textLint := stalling_core;
     Engine.availableExtensions := Engine.collect_availableExtensions stalling_core [] |}.

(** No message is fatal. *)
Definition never_fatal (m : TextLintMessage) : bool := false.

(** A file system for the fixer: the content of every file, by path, paths
    being files of one directory; nothing can be written under the
    directory [gone/], which does not exist. *)
Definition fs_write (fs : gmap string string) (p data : string)
    : gmap string string * option JsError :=
  if String.prefix "gone/" p
  then (fs, Some (Error ("ENOENT: no such file or directory, open '" ++ p ++ "'")))
  else (<[p := data]> fs, None).

(** A fix result for a path under [gone/]. *)
Definition fixed_gone : TextLintFixResult :=
  {| fr_filePath := Str "gone/a.txt"; fr_output := "a";
     fr_originalMessages := []; fr_applyingMessages := [];
     fr_remainingMessages := [] |}.

(** What the caller of a pipeline observes: the exception, or the promise. *)
Definition observed {A} (c : Completion (@Core.Run string unit Creator A))
    : Completion (Promise A) :=
  match c with
  | Throw e => Throw e
  | Return run => Return (Core.promise run)
  end.

(** The names of the rules and the text of every Task of a run. *)
Definition task_log {A} (c : Completion (@Core.Run string unit Creator A))
    : list (list string * string) :=
  match c with
  | Throw _ => []
  | Return run =>
      (λ t, ((Core.t_rules t).*1, Core.sc_text (Core.t_sourceCode t))) <$> Core.tasks run
  end.

End Sample.

(** * Properties *)

Local Open Scope list_scope.
Local Open Scope nat_scope.

(** ** Promises and thrown values *)

Lemma resolve_pending {A} (v : A) : resolve v Pending = Fulfilled v.
Proof. reflexivity. Qed.

Lemma then_value_fulfilled {A B} (p : Promise A) (f : A → B) (b : B) :
  then_value p f = Fulfilled b ↔ ∃ a, p = Fulfilled a ∧ b = f a.
Proof.
  destruct p as [|a|e]; simpl; split.
  - discriminate.
  - intros (a & Ha & _). discriminate.
  - intros [= <-]. by exists a.
  - intros (a' & [= <-] & ->). reflexivity.
  - discriminate.
  - intros (a & Ha & _). discriminate.
Qed.



Lemma map_throwing_Return {A B} (f : A → Completion B) (l : list A) (ys : list B) :
  map_throwing f l = Return ys → Forall2 (λ x y, f x = Return y) l ys.
Proof.
  revert ys. induction l as [|x l IH]; intros ys; simpl.
  - intros [= <-]. constructor.
  - destruct (f x) as [y|e] eqn:Hx; [|discriminate].
    destruct (map_throwing f l) as [ys'|e]; [|discriminate].
    intros [= <-]. constructor; [done | by apply IH].
Qed.

(** ** The lint pipeline *)

Section LintProperties.

Context {AST Config RuleCreator : Type}.
Implicit Types (core : @Core.TextlintCore AST Config RuleCreator).
Implicit Types (proc : @Core.Processor AST) (fns : @Core.ProcessorFns AST).
Implicit Types (st : Core.LintState) (ms : list TextLintMessage).

Variable LinterTask_process : @Core.TaskArgs AST Config RuleCreator → TaskRun.

(** Delivering diagnostics only fills the array [messages]. *)
Lemma lint_messages_delivered fns ext fp st ms :
  foldl (Core.lint_handle fns ext fp) st (EvMessage <$> ms) =
  {| Core.l_messages := Core.l_messages st ++ ms;
     Core.l_promise := Core.l_promise st |}.
Proof.
  revert st. induction ms as [|m ms IH]; intros st; simpl.
  - rewrite app_nil_r. by destruct st.
  - rewrite IH. simpl. by rewrite <- app_assoc.
Qed.

(** The promise the handlers reach over a whole Task run. *)
Lemma lint_delivered fns ext fp (run : TaskRun) :
  foldl (Core.lint_handle fns ext fp) Core.lint_init (task_events run) =
  {| Core.l_messages := emitted run;
     Core.l_promise :=
       match ending run with
       | Done =>
           match Core.lint_complete fns ext fp (emitted run) with
           | Return r => Fulfilled r
           | Throw e => Rejected e
           end
       | Failure e => Rejected e
       | Stalled => Pending
       end |}.
Proof.
  unfold task_events. rewrite foldl_app, lint_messages_delivered. simpl.
  destruct (ending run); simpl; [|reflexivity|reflexivity].
  by destruct (Core.lint_complete fns ext fp (emitted run)).
Qed.

(** What [lint_finish] lets through. *)
Lemma lint_finish_Return ext (post r : TextLintResult) :
  Core.lint_finish ext post = Return r →
  truthy (filePath r) = true ∧ is_Some (messages r) ∧ messages r = messages post ∧
  filePath r = (if is_nullish (filePath post)
                then Str ("<Unkown" ++ ext ++ ">") else filePath post).
Proof.
  unfold Core.lint_finish, Core.assert_result.
  destruct (is_nullish (filePath post)); simpl.
  - destruct (messages post) as [ms|] eqn:Hms; [|discriminate].
    intros [= <-]. simpl. eauto.
  - destruct (truthy (filePath post)) eqn:Ht; [|discriminate].
    destruct (messages post) as [ms|] eqn:Hms; [|discriminate].
    intros [= <-]. rewrite Hms. eauto.
Qed.





(** The promise of a lint, by the way its Task ends. *)
Lemma lint_promise core proc text ext fp :
  let fns := Core.processor proc ext in
  let task := Core.lint_task core (Core.preProcess fns text fp) text ext fp in
  Core._lintByProcessor LinterTask_process core (Some proc) text ext fp =
  Return
    {| Core.promise :=
         match ending (LinterTask_process task) with
         | Done =>
             match Core.lint_complete fns ext fp (emitted (LinterTask_process task)) with
             | Return r => Fulfilled r
             | Throw e => Rejected e
             end
         | Failure e => Rejected e
         | Stalled => Pending
         end;
       Core.tasks := [task] |}.
Proof. intros fns task. simpl. fold fns. fold task. by rewrite lint_delivered. Qed.


End LintProperties.

(** ** The fix pipeline *)

Section FixProperties.

Context {AST Config RuleCreator : Type}.
Implicit Types (core : @Core.TextlintCore AST Config RuleCreator).
Implicit Types (proc : @Core.Processor AST) (fns : @Core.ProcessorFns AST).
Implicit Types (kr : string * @Core.Rule RuleCreator).
Implicit Types (l : list (string * @Core.Rule RuleCreator)).
Implicit Types (acc : @Core.FixFold AST Config RuleCreator).
Implicit Types (t : @Core.TaskArgs AST Config RuleCreator).

Variable FixerTask_process : @Core.TaskArgs AST Config RuleCreator → TaskRun.
Variable applyFixes :
  @Core.SourceCode AST → option (list TextLintMessage) → Completion Applied.

#[local] Abbreviation fixerProcess := (Core.fixerProcess FixerTask_process applyFixes).
#[local] Abbreviation then_fixerProcess :=
  (Core.then_fixerProcess FixerTask_process applyFixes).
#[local] Abbreviation reduce_fixers := (Core.reduce_fixers FixerTask_process applyFixes).
#[local] Abbreviation handler fns fp t :=
  (Core.step_applied applyFixes fns fp (Core.t_sourceCode t)
     (emitted (FixerTask_process t))).
#[local] Abbreviation step_promise fns fp t :=
  (match ending (FixerTask_process t) with
   | Done =>
       match handler fns fp t with
       | Return pa =>
           Fulfilled (if fixed pa.2 then output pa.2
                      else Core.sc_text (Core.t_sourceCode t))
       | Throw e => Rejected e
       end
   | Failure e => Rejected e
   | Stalled => Pending
   end).

Lemma fix_messages_delivered fns fp sc sourceText (st : Core.FixState) ms :
  foldl (Core.fix_handle applyFixes fns fp sc sourceText) st (EvMessage <$> ms) =
  {| Core.f_messages := Core.f_messages st ++ ms;
     Core.f_promise := Core.f_promise st;
     Core.f_shared := Core.f_shared st |}.
Proof.
  revert st. induction ms as [|m ms IH]; intros st; simpl.
  - rewrite app_nil_r. by destruct st.
  - rewrite IH. simpl. by rewrite <- app_assoc.
Qed.

Lemma step_applied_Return fns fp (sc : @Core.SourceCode AST) ms post applied :
  Core.step_applied applyFixes fns fp sc ms = Return (post, applied) ↔
  Core.postProcess fns ms fp = Return post ∧ applyFixes sc (messages post) = Return applied.
Proof.
  unfold Core.step_applied. destruct (Core.postProcess fns ms fp) as [post'|e].
  - destruct (applyFixes sc (messages post')) as [applied'|e] eqn:Ha.
    + split; [by intros [= <- <-]|]. intros [[= <-] Ha']. congruence.
    + split; [discriminate|]. intros [[= <-] Ha']. congruence.
  - split; [discriminate|]. by intros [? _].
Qed.

(** One step, by the way its Task ends and by what its [complete] handler
    gets from the processor and the resolver. *)
Lemma fixerProcess_spec core fns ext fp kr sourceText sh :
  let task := Core.step_task core fns ext fp kr sourceText in
  (fixerProcess core fns ext fp kr sourceText sh).2 = task ∧
  Core.f_promise (fixerProcess core fns ext fp kr sourceText sh).1 =
    step_promise fns fp task ∧
  (∀ post applied,
     ending (FixerTask_process task) = Done →
     handler fns fp task = Return (post, applied) →
     Core.f_shared (fixerProcess core fns ext fp kr sourceText sh).1 =
       Core.pushed sh post applied).
Proof.
  intros task. unfold Core.fixerProcess. fold task. simpl.
  unfold task_events. rewrite foldl_app, fix_messages_delivered. simpl.
  unfold Core.step_applied.
  change (Core.t_sourceCode task) with (Core.step_sourceCode fns ext fp sourceText).
  split; [done|].
  destruct (ending (FixerTask_process task)); simpl; [|by split|by split].
  destruct (Core.postProcess fns (emitted (FixerTask_process task)) fp) as [post|e];
    simpl; [|by split].
  destruct (applyFixes _ (messages post)) as [applied|e]; simpl; [|by split].
  split; [done|]. by intros post' applied' _ [= <- <-].
Qed.

Lemma then_fixerProcess_fulfilled core fns ext fp acc kr sourceText :
  Core.ff_promise acc = Fulfilled sourceText →
  let task := Core.step_task core fns ext fp kr sourceText in
  Core.ff_tasks (then_fixerProcess core fns ext fp acc kr) = Core.ff_tasks acc ++ [task] ∧
  Core.ff_promise (then_fixerProcess core fns ext fp acc kr) = step_promise fns fp task ∧
  (∀ post applied,
     ending (FixerTask_process task) = Done →
     handler fns fp task = Return (post, applied) →
     Core.ff_shared (then_fixerProcess core fns ext fp acc kr) =
       Core.pushed (Core.ff_shared acc) post applied).
Proof.
  intros Hp task. unfold Core.then_fixerProcess. rewrite Hp.
  destruct (fixerProcess_spec core fns ext fp kr sourceText (Core.ff_shared acc))
    as (Ht & Hpr & Hsh).
  destruct (fixerProcess core fns ext fp kr sourceText (Core.ff_shared acc)) as [st t].
  simpl in *. subst t. done.
Qed.

(** A promise that is not fulfilled stops the chain: no later step runs. *)
Lemma then_fixerProcess_stuck core fns ext fp acc kr :
  (∀ s, Core.ff_promise acc ≠ Fulfilled s) →
  then_fixerProcess core fns ext fp acc kr = acc.
Proof.
  intros Hp. unfold Core.then_fixerProcess.
  destruct (Core.ff_promise acc) as [|s|e] eqn:E; [done| |done].
  by destruct (Hp s).
Qed.

Lemma fold_stuck core fns ext fp acc l :
  (∀ s, Core.ff_promise acc ≠ Fulfilled s) →
  foldl (then_fixerProcess core fns ext fp) acc l = acc.
Proof.
  intros Hp. induction l as [|kr l IH]; simpl; [done|].
  by rewrite then_fixerProcess_stuck.
Qed.

Lemma reduce_app core fns ext fp text l1 l2 :
  reduce_fixers core fns ext fp text (l1 ++ l2) =
  foldl (then_fixerProcess core fns ext fp) (reduce_fixers core fns ext fp text l1) l2.
Proof. unfold Core.reduce_fixers. apply foldl_app. Qed.

Lemma reduce_snoc core fns ext fp text l kr :
  reduce_fixers core fns ext fp text (l ++ [kr]) =
  then_fixerProcess core fns ext fp (reduce_fixers core fns ext fp text l) kr.
Proof. by rewrite reduce_app. Qed.

(** The log of the [reduce] over [l]: the Task at index [i] belongs to the
    rule at index [i], and its text is the one the chain reached after the
    [i] rules before it. *)
Lemma reduce_tasks core fns ext fp text l :
  let acc := reduce_fixers core fns ext fp text l in
  length (Core.ff_tasks acc) ≤ length l ∧
  (∀ s, Core.ff_promise acc = Fulfilled s → length (Core.ff_tasks acc) = length l) ∧
  (Core.t_rules <$> Core.ff_tasks acc) `prefix_of` ((λ kr, [kr]) <$> l) ∧
  (∀ i t, Core.ff_tasks acc !! i = Some t →
     ∃ kr s, l !! i = Some kr ∧
       Core.ff_promise (reduce_fixers core fns ext fp text (take i l)) = Fulfilled s ∧
       t = Core.step_task core fns ext fp kr s).
Proof.
  induction l as [|kr l IH] using rev_ind; simpl.
  - split; [done|]. split; [done|]. split; [done|]. intros i t Hi. by destruct i.
  - destruct IH as (Hle & Hlen & Hpre & Hlook).
    rewrite reduce_snoc, length_app, fmap_app. simpl.
    destruct (Core.ff_promise (reduce_fixers core fns ext fp text l)) as [|s|e] eqn:Hp.
    + rewrite then_fixerProcess_stuck by (rewrite Hp; done).
      split; [lia|]. split; [by rewrite Hp|]. split; [by apply prefix_app_r|].
      intros i t Hi. destruct (Hlook i t Hi) as (kr' & s' & Hl & Hs & ->).
      exists kr', s'. apply lookup_lt_Some in Hl as Hlt.
      rewrite lookup_app_l by done. rewrite take_app_le by lia. done.
    + destruct (then_fixerProcess_fulfilled core fns ext fp _ kr s Hp)
        as (Htasks & Hpromise & _).
      rewrite Htasks, length_app, (Hlen s eq_refl). simpl.
      split; [lia|]. split; [done|]. split.
      * rewrite fmap_app. simpl.
        rewrite (prefix_length_eq _ _ Hpre); [done|].
        rewrite !length_fmap. by rewrite (Hlen s eq_refl).
      * intros i t Hi.
        destruct (decide (i < length l)) as [Hlt|Hge].
        -- rewrite lookup_app_l in Hi by (rewrite (Hlen s eq_refl); done).
           destruct (Hlook i t Hi) as (kr' & s' & Hl & Hs & ->).
           exists kr', s'. rewrite lookup_app_l by done.
           rewrite take_app_le by lia. done.
        -- apply lookup_lt_Some in Hi as Hlt'.
           rewrite length_app, (Hlen s eq_refl) in Hlt'. simpl in Hlt'.
           assert (i = length l) as -> by lia.
           rewrite <- (Hlen s eq_refl) in Hi at 1.
           rewrite list_lookup_middle in Hi by done. injection Hi as <-.
           exists kr, s. rewrite list_lookup_middle by done.
           rewrite take_app_length. done.
    + rewrite then_fixerProcess_stuck by (rewrite Hp; done).
      split; [lia|]. split; [by rewrite Hp|]. split; [by apply prefix_app_r|].
      intros i t Hi. destruct (Hlook i t Hi) as (kr' & s' & Hl & Hs & ->).
      exists kr', s'. apply lookup_lt_Some in Hl as Hlt.
      rewrite lookup_app_l by done. rewrite take_app_le by lia. done.
Qed.

(** After the step of the Task at index [i], the chain is in the state
    that step left it in. *)
Lemma reduce_next core fns ext fp text l i t :
  Core.ff_tasks (reduce_fixers core fns ext fp text l) !! i = Some t →
  Core.ff_promise (reduce_fixers core fns ext fp text (take (S i) l)) =
    step_promise fns fp t.
Proof.
  intros Hi. destruct (reduce_tasks core fns ext fp text l) as (_ & _ & _ & Hlook).
  destruct (Hlook i t Hi) as (kr & s & Hl & Hs & ->).
  rewrite (take_S_r _ _ _ Hl), reduce_snoc.
  by destruct (then_fixerProcess_fulfilled core fns ext fp _ kr s Hs) as (_ & -> & _).
Qed.

(** Once the chain over a prefix of the rules is not fulfilled, the chain
    over all of them is in that same state. *)
Lemma reduce_stuck_at core fns ext fp text l n :
  (∀ s, Core.ff_promise (reduce_fixers core fns ext fp text (take n l)) ≠ Fulfilled s) →
  reduce_fixers core fns ext fp text l = reduce_fixers core fns ext fp text (take n l).
Proof.
  intros Hp. rewrite <- (take_drop n l) at 1. rewrite reduce_app.
  by apply fold_stuck.
Qed.

(** The chain only adds Tasks to the log. *)
Lemma fold_tasks_prefix core fns ext fp acc l :
  Core.ff_tasks acc `prefix_of`
  Core.ff_tasks (foldl (then_fixerProcess core fns ext fp) acc l).
Proof.
  revert acc. induction l as [|kr l IH]; intros acc; simpl; [done|].
  etrans; [|apply IH].
  destruct (Core.ff_promise acc) as [|s|e] eqn:Hp.
  - by rewrite then_fixerProcess_stuck by (rewrite Hp; done).
  - destruct (then_fixerProcess_fulfilled core fns ext fp acc kr s Hp) as (-> & _).
    by apply prefix_app_r.
  - by rewrite then_fixerProcess_stuck by (rewrite Hp; done).
Qed.

(** A step that leaves a text is followed by the step of the next rule, on
    that text. *)
Lemma reduce_continue core fns ext fp text l i t next kr :
  Core.ff_tasks (reduce_fixers core fns ext fp text l) !! i = Some t →
  step_promise fns fp t = Fulfilled next →
  l !! S i = Some kr →
  Core.ff_tasks (reduce_fixers core fns ext fp text l) !! S i =
    Some (Core.step_task core fns ext fp kr next).
Proof.
  intros Hi Hnext Hkr.
  pose proof (reduce_next core fns ext fp text l i t Hi) as Hp. rewrite Hnext in Hp.
  destruct (reduce_tasks core fns ext fp text (take (S i) l)) as (_ & Hlen & _).
  specialize (Hlen next Hp). apply lookup_lt_Some in Hkr as Hlt.
  rewrite length_take in Hlen.
  destruct (then_fixerProcess_fulfilled core fns ext fp _ kr next Hp) as (Ht & _).
  rewrite <- reduce_snoc, <- (take_S_r _ _ _ Hkr) in Ht.
  eapply prefix_lookup_Some; [|rewrite <- (take_drop (S (S i)) l) at 1;
                               rewrite reduce_app; apply fold_tasks_prefix].
  rewrite Ht. apply list_lookup_middle. rewrite Hlen. lia.
Qed.

(** A step that leaves the chain unfulfilled is the last one. *)
Lemma reduce_stop core fns ext fp text l i t :
  Core.ff_tasks (reduce_fixers core fns ext fp text l) !! i = Some t →
  (∀ s, step_promise fns fp t ≠ Fulfilled s) →
  Core.ff_promise (reduce_fixers core fns ext fp text l) = step_promise fns fp t ∧
  length (Core.ff_tasks (reduce_fixers core fns ext fp text l)) = S i.
Proof.
  intros Hi Hstop.
  pose proof (reduce_next core fns ext fp text l i t Hi) as Hnext.
  assert (Hstuck : reduce_fixers core fns ext fp text l =
                   reduce_fixers core fns ext fp text (take (S i) l)).
  { apply reduce_stuck_at. intros s. rewrite Hnext. apply Hstop. }
  rewrite Hstuck in Hi |- *. split; [done|].
  destruct (reduce_tasks core fns ext fp text (take (S i) l)) as (Hle & _).
  apply lookup_lt_Some in Hi. rewrite length_take in Hle. lia.
Qed.

(** The step of the last rule decides the chain. *)
Lemma reduce_end core fns ext fp text l i t :
  Core.ff_tasks (reduce_fixers core fns ext fp text l) !! i = Some t →
  S i = length l →
  Core.ff_promise (reduce_fixers core fns ext fp text l) = step_promise fns fp t.
Proof.
  intros Hi Hlast. rewrite <- (reduce_next core fns ext fp text l i t Hi).
  by rewrite Hlast, firstn_all.
Qed.

(** What a step leaves, in terms of its Task and its two collaborators. *)
Lemma step_promise_Fulfilled fns fp t next :
  step_promise fns fp t = Fulfilled next ↔
  ending (FixerTask_process t) = Done ∧
  ∃ post applied,
    Core.postProcess fns (emitted (FixerTask_process t)) fp = Return post ∧
    applyFixes (Core.t_sourceCode t) (messages post) = Return applied ∧
    next = (if fixed applied then output applied else Core.sc_text (Core.t_sourceCode t)).
Proof.
  split.
  - destruct (ending (FixerTask_process t)); [|discriminate|discriminate].
    destruct (handler fns fp t) as [[post applied]|e] eqn:Hh; [|discriminate].
    apply step_applied_Return in Hh as [Hpost Happlied].
    intros [= <-]. split; [done|]. by exists post, applied.
  - intros (-> & post & applied & Hpost & Happlied & ->).
    by rewrite (proj2 (step_applied_Return _ _ _ _ _ _) (conj Hpost Happlied)).
Qed.

Lemma fixProcess_Return core proc text ext fp :
  Core._fixProcess FixerTask_process applyFixes core (Some proc) text ext fp =
  Return
    {| Core.promise :=
         then_value
           (Core.ff_promise
              (reduce_fixers core (Core.processor proc ext) ext fp text (Core.fixerRules core)))
           (λ output,
              let sh := Core.ff_shared
                (reduce_fixers core (Core.processor proc ext) ext fp text (Core.fixerRules core)) in
              {| fr_filePath := Core.resultFilePath sh;
                 fr_output := output;
                 fr_originalMessages := Core.originalMessages sh;
                 fr_applyingMessages := Core.applyingMessages sh;
                 fr_remainingMessages := Core.remainingMessages sh |});
       Core.tasks :=
         Core.ff_tasks
           (reduce_fixers core (Core.processor proc ext) ext fp text (Core.fixerRules core)) |}.
Proof. reflexivity. Qed.

(** [C1] A fix invocation is a single pass over the rules of [this.rules]
    that carry a fixer, in their order. The Tasks constructed are, in
    order, those of these rules, one Task per rule and each with that rule
    alone: the log of Tasks is a prefix of that list of rules, and the whole
    list once the invocation is fulfilled, so that no rule gets a second
    Task after a later rule changed the text. The Task of the first rule is
    constructed for the text given. When the step of a Task leaves a text
    (its Task completed, and [postProcess] and [applyFixes] returned: the
    text is the resolver's output if it reported [fixed], the text of the
    Task otherwise), the Task of the next rule is constructed for that text,
    and after the last rule the invocation is fulfilled with that text for
    output. A step that leaves no text is the last: no Task is constructed
    after it and the invocation is not fulfilled. *)
Theorem fix_single_pass core proc text ext fp :
  ∃ run,
    Core._fixProcess FixerTask_process applyFixes core (Some proc) text ext fp = Return run ∧
    let fns := Core.processor proc ext in
    let participating := filter (λ kr, is_Some (Core.fixer kr.2)) (Core.rules core) in
    let leaves t next :=
      ending (FixerTask_process t) = Done ∧
      ∃ post applied,
        Core.postProcess fns (emitted (FixerTask_process t)) fp = Return post ∧
        applyFixes (Core.t_sourceCode t) (messages post) = Return applied ∧
        next = (if fixed applied then output applied
                else Core.sc_text (Core.t_sourceCode t)) in
    (Core.t_rules <$> Core.tasks run) `prefix_of` ((λ kr, [kr]) <$> participating) ∧
    (∀ r, Core.promise run = Fulfilled r →
       Core.t_rules <$> Core.tasks run = (λ kr, [kr]) <$> participating) ∧
    (∀ kr, participating !! 0 = Some kr →
       Core.tasks run !! 0 = Some (Core.step_task core fns ext fp kr text)) ∧
    (∀ i t next kr, Core.tasks run !! i = Some t → leaves t next →
       participating !! S i = Some kr →
       Core.tasks run !! S i = Some (Core.step_task core fns ext fp kr next)) ∧
    (∀ i t next, Core.tasks run !! i = Some t → leaves t next →
       S i = length participating →
       ∃ r, Core.promise run = Fulfilled r ∧ fr_output r = next) ∧
    (∀ i t, Core.tasks run !! i = Some t → (∀ next, ¬ leaves t next) →
       length (Core.tasks run) = S i ∧ ∀ r, Core.promise run ≠ Fulfilled r).
Proof.
  eexists. split; [apply fixProcess_Return|]. simpl.
  fold (Core.fixerRules core).
  set (fns := Core.processor proc ext). set (l := Core.fixerRules core).
  destruct (reduce_tasks core fns ext fp text l) as (Hle & Hlen & Hpre & Hlook).
  split; [done|]. split; [|split; [|split; [|split]]].
  - intros r Hr. apply then_value_fulfilled in Hr as (s & Hs & _).
    apply prefix_length_eq; [done|]. rewrite !length_fmap. by rewrite (Hlen s Hs).
  - intros kr Hkr.
    destruct (then_fixerProcess_fulfilled core fns ext fp
                (Core.fix_init fp text) kr text eq_refl) as (Ht & _).
    eapply prefix_lookup_Some;
      [|rewrite <- (take_drop 1 l); rewrite reduce_app; apply fold_tasks_prefix].
    fold l. rewrite (take_S_r l 0 kr Hkr).
    change (reduce_fixers core fns ext fp text (take 0 l ++ [kr]))
      with (then_fixerProcess core fns ext fp (Core.fix_init fp text) kr).
    by rewrite Ht.
  - intros i t next kr Hi Hleaves Hkr.
    apply (reduce_continue core fns ext fp text l i t); [done| |done].
    by apply step_promise_Fulfilled.
  - intros i t next Hi Hleaves Hlast.
    rewrite (reduce_end core fns ext fp text l i t Hi Hlast).
    apply step_promise_Fulfilled in Hleaves as ->. by eexists.
  - intros i t Hi Hnone.
    destruct (reduce_stop core fns ext fp text l i t Hi) as [Hp Hlast].
    { intros s Hs. apply step_promise_Fulfilled in Hs. by apply (Hnone s). }
    split; [done|]. intros r Hr. apply then_value_fulfilled in Hr as (s & Hs & _).
    rewrite Hp in Hs. apply step_promise_Fulfilled in Hs. by apply (Hnone s).
Qed.

(** [C2] In a fix invocation, take any step whose Task completed and in
    which the resolver answered ([postProcess] and [applyFixes] returned).
    If a rule with a fixer follows, the Task of the next step exists, and
    its text is the text this step received when the resolver reported
    [fixed] false, and the resolver's [output] when it reported [fixed]
    true. If no rule follows, the invocation is fulfilled, and its output is
    the text this step received, or the resolver's [output], in the same
    way. The first step receives the text given. *)
Theorem fix_step_threads_text core proc text ext fp run i t post applied :
  Core._fixProcess FixerTask_process applyFixes core (Some proc) text ext fp = Return run →
  let fns := Core.processor proc ext in
  let received := Core.sc_text (Core.t_sourceCode t) in
  Core.tasks run !! i = Some t →
  ending (FixerTask_process t) = Done →
  Core.postProcess fns (emitted (FixerTask_process t)) fp = Return post →
  applyFixes (Core.t_sourceCode t) (messages post) = Return applied →
  (i = 0 → received = text) ∧
  (S i < length (Core.fixerRules core) →
     ∃ t', Core.tasks run !! S i = Some t' ∧
       (fixed applied = false → Core.sc_text (Core.t_sourceCode t') = received) ∧
       (fixed applied = true → Core.sc_text (Core.t_sourceCode t') = output applied)) ∧
  (S i = length (Core.fixerRules core) →
     ∃ r, Core.promise run = Fulfilled r ∧
       (fixed applied = false → fr_output r = received) ∧
       (fixed applied = true → fr_output r = output applied)).
Proof.
  rewrite fixProcess_Return. intros [= <-] fns received. simpl. fold fns.
  set (l := Core.fixerRules core). intros Hi Hdone Hpost Happlied.
  assert (step_promise fns fp t =
          Fulfilled (if fixed applied then output applied else received)) as Hnext.
  { apply step_promise_Fulfilled. split; [done|]. by exists post, applied. }
  destruct (reduce_tasks core fns ext fp text l) as (_ & _ & _ & Hlook).
  split; [|split].
  - intros ->. destruct (Hlook 0 t Hi) as (kr & s & _ & Hs & ->).
    simpl in Hs. by injection Hs as <-.
  - intros Hlt. destruct (lookup_lt_is_Some_2 l (S i) Hlt) as [kr Hkr].
    eexists. split; [by apply (reduce_continue core fns ext fp text l i t)|].
    simpl. by split; intros ->.
  - intros Hlast. rewrite (reduce_end core fns ext fp text l i t Hi Hlast), Hnext.
    eexists. split; [done|]. simpl. by split; intros ->.
Qed.

End FixProperties.

(** ** Tasks, failures and targets *)

Section TaskProperties.

Context {AST Config RuleCreator : Type}.
Implicit Types (core : @Core.TextlintCore AST Config RuleCreator).
Implicit Types (proc : @Core.Processor AST).
Implicit Types (eng : @Engine.TextLintEngine AST Config RuleCreator).

Variable LinterTask_process : @Core.TaskArgs AST Config RuleCreator → TaskRun.
Variable FixerTask_process : @Core.TaskArgs AST Config RuleCreator → TaskRun.
Variable applyFixes :
  @Core.SourceCode AST → option (list TextLintMessage) → Completion Applied.
Variable path_resolve : string → string.
Variable path_extname : string → string.
Variable readFileSync : string → Completion string.
Variable findFiles : list string → list string → Completion (list string).

#[local] Abbreviation _lintByProcessor := (Core._lintByProcessor LinterTask_process).
#[local] Abbreviation _fixProcess := (Core._fixProcess FixerTask_process applyFixes).
#[local] Abbreviation lintFile :=
  (Core.lintFile LinterTask_process path_resolve path_extname readFileSync).
#[local] Abbreviation fixFile :=
  (Core.fixFile FixerTask_process applyFixes path_resolve path_extname readFileSync).
#[local] Abbreviation fixText := (Core.fixText FixerTask_process applyFixes).

(** The rules that take part in a fix are the registered rules that are
    enabled and carry a fixer, in the order they were registered in. *)
Lemma fixerRules_setupRules core rs cfg :
  Core.fixerRules (Core.setupRules rs cfg core) =
  filter (λ kr, is_Some (Core.fixer kr.2))
         (filter (λ kr, Core.rule_enabled cfg kr.1 = true) rs) ∧
  Core.fixerRules (Core.setupRules rs cfg core) `sublist_of` rs.
Proof.
  split; [reflexivity|]. unfold Core.fixerRules, Core.setupRules. simpl.
  unfold Core.ignoreDisableRules.
  etrans; apply sublist_filter.
Qed.

(** [C6] Every Task the fix pipeline constructs carries a rule set of
    exactly one rule, a rule of [this.rules] that has a fixer; the lint
    pipeline constructs a single Task, which carries all of [this.rules]. *)
Theorem task_rule_sets core p text ext fp :
  (∀ run, _fixProcess core p text ext fp = Return run →
     Forall (λ t, ∃ kr, Core.t_rules t = [kr] ∧ kr ∈ Core.rules core ∧
                        is_Some (Core.fixer kr.2))
            (Core.tasks run)) ∧
  (∀ run, _lintByProcessor core p text ext fp = Return run →
     ∃ t, Core.tasks run = [t] ∧ Core.t_rules t = Core.rules core).
Proof.
  split.
  - intros run Hrun. destruct p as [proc|]; [|discriminate].
    rewrite fixProcess_Return in Hrun. injection Hrun as <-. simpl.
    apply Forall_lookup. intros i t Hi.
    destruct (reduce_tasks FixerTask_process applyFixes core (Core.processor proc ext)
                ext fp text (Core.fixerRules core)) as (_ & _ & _ & Hlook).
    destruct (Hlook i t Hi) as (kr & s & Hl & _ & ->).
    exists kr. split; [done|].
    apply list_elem_of_lookup_2 in Hl. unfold Core.fixerRules in Hl.
    by apply list_elem_of_filter in Hl as [? ?].
  - intros run Hrun. destruct p as [proc|]; [|discriminate].
    rewrite lint_promise in Hrun. injection Hrun as <-. simpl. by eexists.
Qed.

(** [C5] A Task that ends with a failure rejects the promise of its
    pipeline with that same error. In the lint pipeline the one Task was
    constructed and no result is resolved. In the fix pipeline the failing
    Task is the last one constructed: it is not run again, and no later
    rule runs. In [executeOnFiles] and [fixFiles] the pipeline of every
    target is the one [lintFile] or [fixFile] returns for that target
    alone, whatever the pipelines of the other targets do. *)
Theorem task_failure_rejects_target :
  (∀ core proc text ext fp e,
     let fns := Core.processor proc ext in
     let task := Core.lint_task core (Core.preProcess fns text fp) text ext fp in
     ending (LinterTask_process task) = Failure e →
     _lintByProcessor core (Some proc) text ext fp =
     Return {| Core.promise := Rejected e; Core.tasks := [task] |}) ∧
  (∀ core proc text ext fp run i t e,
     _fixProcess core (Some proc) text ext fp = Return run →
     Core.tasks run !! i = Some t →
     ending (FixerTask_process t) = Failure e →
     Core.promise run = Rejected e ∧ length (Core.tasks run) = S i) ∧
  (∀ eng files runs,
     Engine.lint_results LinterTask_process path_resolve path_extname readFileSync
                         findFiles eng files = Return runs →
     ∃ targets,
       findFiles files (Engine.availableExtensions eng) = Return targets ∧
       Forall2 (λ file run, lintFile (Engine.textLint eng) file = Return run)
               targets runs) ∧
  (∀ eng files runs,
     Engine.fix_results FixerTask_process applyFixes path_resolve path_extname
                        readFileSync findFiles eng files = Return runs →
     ∃ targets,
       findFiles files (Engine.availableExtensions eng) = Return targets ∧
       Forall2 (λ file run, fixFile (Engine.textLint eng) file = Return run)
               targets runs).
Proof.
  split; [|split; [|split]].
  - intros core proc text ext fp e fns task He.
    rewrite lint_promise. fold fns. fold task. by rewrite He.
  - intros core proc text ext fp run i t e Hrun Hi He.
    rewrite fixProcess_Return in Hrun. injection Hrun as <-. simpl in *.
    destruct (reduce_stop FixerTask_process applyFixes core (Core.processor proc ext)
                ext fp text (Core.fixerRules core) i t Hi) as [Hp Hlast].
    { rewrite He. discriminate. }
    rewrite Hp, He. done.
  - intros eng files runs. unfold Engine.lint_results.
    destruct (findFiles files (Engine.availableExtensions eng)) as [targets|];
      [|discriminate].
    intros Hruns. exists targets. split; [done|]. by apply map_throwing_Return in Hruns.
  - intros eng files runs. unfold Engine.fix_results.
    destruct (findFiles files (Engine.availableExtensions eng)) as [targets|];
      [|discriminate].
    intros Hruns. exists targets. split; [done|]. by apply map_throwing_Return in Hruns.
Qed.

Lemma no_fixer_rules core :
  (∀ kr, kr ∈ Core.rules core → Core.fixer kr.2 = None) →
  Core.fixerRules core = [].
Proof.
  intros Hnone. unfold Core.fixerRules.
  induction (Core.rules core) as [|kr l IH]; [done|].
  rewrite filter_cons. destruct (decide (is_Some (Core.fixer kr.2))) as [[c Hc]|_].
  - rewrite Hnone in Hc by left. discriminate.
  - apply IH. intros kr' Hkr'. apply Hnone. by right.
Qed.

(** [C10] When no rule of [this.rules] has a fixer and a processor is
    found for the extension, [fixText] is fulfilled with the text as given
    for output and three empty message arrays, and constructs no Task;
    [fixFile] does the same with the content of the file. *)
Theorem fix_without_fixers_is_identity core :
  (∀ kr, kr ∈ Core.rules core → Core.fixer kr.2 = None) →
  (∀ text ext proc,
     Core.getProcessorMatchExtension (Core.processors core) ext = Some proc →
     fixText core text ext =
     Return {| Core.promise :=
                 Fulfilled {| fr_filePath := Undefined; fr_output := text;
                              fr_originalMessages := [];
                              fr_applyingMessages := [];
                              fr_remainingMessages := [] |};
               Core.tasks := [] |}) ∧
  (∀ file text proc,
     readFileSync (path_resolve file) = Return text →
     Core.getProcessorMatchExtension (Core.processors core)
       (path_extname (path_resolve file)) = Some proc →
     fixFile core file =
     Return {| Core.promise :=
                 Fulfilled {| fr_filePath := Str file; fr_output := text;
                              fr_originalMessages := [];
                              fr_applyingMessages := [];
                              fr_remainingMessages := [] |};
               Core.tasks := [] |}).
Proof.
  intros Hnone. apply no_fixer_rules in Hnone. split.
  - intros text ext proc Hproc. unfold Core.fixText. rewrite Hproc.
    rewrite fixProcess_Return, Hnone. reflexivity.
  - intros file text proc Hread Hproc. unfold Core.fixFile. rewrite Hread, Hproc.
    rewrite fixProcess_Return, Hnone. reflexivity.
Qed.

(** The two callers of a pipeline that can find no processor. *)
Lemma lintText_Throw core text ext e :
  Core.lintText LinterTask_process core text ext = Throw e →
  e = AssertionError ("processor is not found for " ++ ext)%string.
Proof.
  unfold Core.lintText.
  destruct (Core.getProcessorMatchExtension (Core.processors core) ext); simpl;
    congruence.
Qed.

Lemma fixText_Throw core text ext e :
  fixText core text ext = Throw e →
  e = TypeError "Cannot read property 'processor' of null".
Proof.
  unfold Core.fixText.
  destruct (Core.getProcessorMatchExtension (Core.processors core) ext); simpl;
    congruence.
Qed.

(** [C3] When no registered processor declares the extension,
    [lintText] throws the AssertionError "processor is not found for"
    followed by the extension, while [fixText] throws the TypeError of
    reading [processor] off [null]: the fix pipeline does not check the
    processor before it uses it. Neither returns a promise. *)
Theorem no_processor_found core text ext :
  Core.getProcessorMatchExtension (Core.processors core) ext = None →
  Core.lintText LinterTask_process core text ext =
    Throw (AssertionError ("processor is not found for " ++ ext)%string) ∧
  fixText core text ext =
    Throw (TypeError "Cannot read property 'processor' of null").
Proof. intros Hnone. unfold Core.lintText, Core.fixText. by rewrite Hnone. Qed.

End TaskProperties.

(** ** [Promise.all] and the order of completion *)

Lemma filter_all {B} (P : B → Prop) `{∀ x, Decision (P x)} (l : list B) :
  Forall P l → filter P l = l.
Proof.
  induction 1 as [|x l Hx _ IH]; [done|]. by rewrite filter_cons_True, IH.
Qed.

Section PromiseAll.

Context {A : Type}.
Implicit Types (ps : list (Promise A)) (order : list nat).
Implicit Types (vs : list (option A)).

#[local] Abbreviation after ps order := (foldl (all_settle ps) (all_init ps) order).

Lemma after_snoc ps order i :
  after ps (order ++ [i]) = all_settle ps (after ps order) i.
Proof. by rewrite foldl_app. Qed.

Lemma all_settle_eq ps (st : AllState A) i :
  all_settle ps st i =
  match ps !! i with
  | Some (Fulfilled v) =>
      {| all_values := <[i := Some v]> (all_values st);
         all_resolved := S (all_resolved st);
         all_promise :=
           if decide (length ps ≤ S (all_resolved st))
           then resolve (<[i := Some v]> (all_values st)) (all_promise st)
           else all_promise st |}
  | Some (Rejected e) =>
      {| all_values := all_values st;
         all_resolved := all_resolved st;
         all_promise := reject e (all_promise st) |}
  | _ => st
  end.
Proof. reflexivity. Qed.

Lemma fulfilled_at_false ps i :
  fulfilled_at ps i ≠ true ↔ ∀ v, ps !! i ≠ Some (Fulfilled v).
Proof.
  unfold fulfilled_at. destruct (ps !! i) as [[|v|e]|]; split; try done.
  intros H. by destruct (H v).
Qed.

Lemma fulfilled_at_true ps i :
  fulfilled_at ps i = true ↔ ∃ v, ps !! i = Some (Fulfilled v).
Proof.
  unfold fulfilled_at. destruct (ps !! i) as [[|v|e]|]; split;
    try discriminate; try (by intros [? ?]); eauto.
Qed.

(** The array of values keeps its length, and holds at every index that
    reported a fulfilment the value of the promise at that index. *)
Lemma all_values_spec ps order :
  length (all_values (after ps order)) = length ps ∧
  ∀ j v, j ∈ order → ps !! j = Some (Fulfilled v) →
         all_values (after ps order) !! j = Some (Some v).
Proof.
  induction order as [|i order [Hlen Hval]] using rev_ind.
  - split; [apply length_replicate|]. intros j v Hj. by apply elem_of_nil in Hj.
  - rewrite after_snoc, all_settle_eq.
    destruct (ps !! i) as [[|v|e]|] eqn:Hi; simpl.
    + split; [done|]. intros j w Hj Hw.
      apply elem_of_app in Hj as [Hj|Hj]; [by apply Hval|].
      apply list_elem_of_singleton in Hj as ->. congruence.
    + split; [by rewrite length_insert|]. intros j w Hj Hw.
      destruct (decide (i = j)) as [<-|Hne].
      * rewrite list_lookup_insert_eq; [congruence|].
        rewrite Hlen. by apply lookup_lt_Some in Hi.
      * rewrite list_lookup_insert_ne by done.
        apply elem_of_app in Hj as [Hj|Hj]; [by apply Hval|].
        apply list_elem_of_singleton in Hj. congruence.
    + split; [done|]. intros j w Hj Hw.
      apply elem_of_app in Hj as [Hj|Hj]; [by apply Hval|].
      apply list_elem_of_singleton in Hj as ->. congruence.
    + split; [done|]. intros j w Hj Hw.
      apply elem_of_app in Hj as [Hj|Hj]; [by apply Hval|].
      apply list_elem_of_singleton in Hj as ->. congruence.
Qed.

(** The counter counts the fulfilments reported. *)
Lemma all_resolved_spec ps order :
  all_resolved (after ps order) =
  length (filter (λ i, fulfilled_at ps i = true) order).
Proof.
  induction order as [|i order IH] using rev_ind; [done|].
  rewrite after_snoc, filter_app, length_app, filter_cons, filter_nil.
  case_decide as Hf; rewrite all_settle_eq.
  - apply fulfilled_at_true in Hf as [v ->]. simpl. rewrite IH. lia.
  - rewrite fulfilled_at_false in Hf.
    destruct (ps !! i) as [[|v|e]|] eqn:Hi; simpl; rewrite ?IH; try lia.
    by destruct (Hf v).
Qed.

(** As many distinct indices below [n] as [n] are all of them. *)
Lemma all_indices (l : list nat) n :
  NoDup l → (∀ x, x ∈ l → x < n) → n ≤ length l → ∀ j, j < n → j ∈ l.
Proof.
  intros Hnd Hlt Hlen j Hj.
  assert (l ⊆+ seq 0 n) as Hsub.
  { apply NoDup_submseteq; [done|]. intros x Hx. apply elem_of_seq.
    specialize (Hlt x Hx). lia. }
  apply submseteq_length_Permutation in Hsub; [|by rewrite length_seq].
  rewrite Hsub. apply elem_of_seq. lia.
Qed.

(** A fulfilled [Promise.all] holds, index by index, the values of the
    promises it was given. *)
Lemma Promise_all_sound ps order vs :
  NoDup order →
  Promise_all ps order = Fulfilled vs →
  Forall2 (λ p v, ∃ r, p = Fulfilled r ∧ v = Some r) ps vs.
Proof.
  unfold Promise_all. revert vs.
  induction order as [|i order IH] using rev_ind; intros vs Hnd.
  - simpl. destruct ps; [|discriminate]. intros [= <-]. constructor.
  - apply NoDup_app in Hnd as (Hnd & Hfresh & _).
    pose proof (all_values_spec ps (order ++ [i])) as [Hlen Hval].
    pose proof (all_resolved_spec ps (order ++ [i])) as Hcount.
    rewrite after_snoc in *. rewrite all_settle_eq in *.
    destruct (ps !! i) as [[|v|e]|] eqn:Hi; simpl in *; try by apply IH.
    + destruct (decide (length ps ≤ S (all_resolved (after ps order)))) as [Hall|];
        [|by apply IH].
      destruct (all_promise (after ps order)) as [|vs'|e] eqn:Hp; simpl;
        [|intros ?; by apply IH|discriminate].
      intros [= <-].
      apply Forall2_same_length_lookup_2; [by rewrite Hlen|].
      intros j p w Hp' Hw.
      assert (j ∈ filter (λ i, fulfilled_at ps i = true) (order ++ [i])) as Hj.
      { apply (all_indices _ (length ps)).
        - apply NoDup_filter, NoDup_app. split; [done|]. split; [|apply NoDup_singleton].
          intros x Hx Hx'. apply list_elem_of_singleton in Hx' as ->.
          by apply (Hfresh i), list_elem_of_singleton.
        - intros x Hx. apply list_elem_of_filter in Hx as [Hx _].
          apply fulfilled_at_true in Hx as [? Hx]. by apply lookup_lt_Some in Hx.
        - by rewrite <- Hcount.
        - by apply lookup_lt_Some in Hp'. }
      apply list_elem_of_filter in Hj as [Hf Hj].
      apply fulfilled_at_true in Hf as [r Hr].
      rewrite (Hval j r Hj Hr) in Hw. exists r. split; congruence.
    + destruct (all_promise (after ps order)) as [|vs'|e'] eqn:Hp; simpl;
        [discriminate|intros ?; by apply IH|discriminate].
Qed.

(** As long as no rejection was reported, [Promise.all] is not rejected. *)
Lemma Promise_all_not_rejected ps order :
  (∀ j e, j ∈ order → ps !! j ≠ Some (Rejected e)) →
  ∀ e, all_promise (after ps order) ≠ Rejected e.
Proof.
  induction order as [|i order IH] using rev_ind; intros Hok e.
  - simpl. by destruct ps.
  - rewrite after_snoc, all_settle_eq.
    assert (∀ e, all_promise (after ps order) ≠ Rejected e) as IH'.
    { apply IH. intros j e' Hj. apply Hok, elem_of_app. by left. }
    destruct (ps !! i) as [[|v|e']|] eqn:Hi; simpl; try apply IH'.
    + case_decide; [|apply IH'].
      destruct (all_promise (after ps order)) eqn:Hp; simpl; try done;
        by destruct (IH' reason).
    + exfalso. apply (Hok i e'); [|done]. apply elem_of_app. right. by left.
Qed.

(** Once every promise reported a fulfilment, [Promise.all] is
    fulfilled. *)
Lemma Promise_all_complete ps order :
  (∀ j e, j ∈ order → ps !! j ≠ Some (Rejected e)) →
  length ps ≤ length (filter (λ i, fulfilled_at ps i = true) order) →
  ∃ vs, Promise_all ps order = Fulfilled vs.
Proof.
  unfold Promise_all.
  induction order as [|i order IH] using rev_ind; intros Hok Hall.
  - simpl in *. destruct ps; [by eexists|simpl in Hall; lia].
  - assert (∀ j e, j ∈ order → ps !! j ≠ Some (Rejected e)) as Hok'.
    { intros j e' Hj. apply Hok, elem_of_app. by left. }
    pose proof (Promise_all_not_rejected ps order Hok') as Hnr.
    pose proof (all_resolved_spec ps order) as Hcount.
    rewrite filter_app, length_app, filter_cons, filter_nil in Hall.
    rewrite after_snoc.
    case_decide as Hf; rewrite all_settle_eq.
    + apply fulfilled_at_true in Hf as [v ->]. simpl in *.
      rewrite decide_True by lia.
      destruct (all_promise (after ps order)) eqn:Hp; simpl; try (by eexists);
        by destruct (Hnr reason).
    + rewrite fulfilled_at_false in Hf. simpl in Hall.
      destruct (ps !! i) as [[|v|e']|] eqn:Hi; simpl.
      * apply IH; [done|lia].
      * by destruct (Hf v).
      * exfalso. apply (Hok i e'); [|done]. apply elem_of_app. right. by left.
      * apply IH; [done|lia].
Qed.

(** When every promise is fulfilled and every index reports once, in
    whatever order, [Promise.all] is fulfilled with the values in the order
    of the promises. *)
Lemma Promise_all_fulfilled ps order (rs : list A) :
  ps = Fulfilled <$> rs →
  order ≡ₚ seq 0 (length ps) →
  Promise_all ps order = Fulfilled (Some <$> rs).
Proof.
  intros -> Hperm.
  assert (NoDup order) as Hnd by (rewrite Hperm; apply NoDup_seq).
  destruct (Promise_all_complete (Fulfilled <$> rs) order) as [vs Hvs].
  - intros j e _. rewrite list_lookup_fmap. by destruct (rs !! j).
  - rewrite filter_all.
    + by rewrite Hperm, length_seq.
    + apply Forall_forall. intros j Hj. rewrite Hperm in Hj.
      apply elem_of_seq in Hj. apply fulfilled_at_true.
      rewrite list_lookup_fmap.
      destruct (lookup_lt_is_Some_2 (Fulfilled <$> rs) j ltac:(lia)) as [p Hp].
      rewrite list_lookup_fmap in Hp.
      destruct (rs !! j) as [r|]; [by exists r|done].
  - rewrite Hvs. f_equal.
    pose proof (Promise_all_sound _ _ _ Hnd Hvs) as Hall.
    apply Forall2_fmap_l in Hall.
    clear Hvs Hperm Hnd. induction Hall as [|r v rs vs Hrv _ IH]; [done|].
    destruct Hrv as (r' & [= <-] & ->). simpl. by rewrite IH.
Qed.

End PromiseAll.

(** ** The engine *)

Lemma Forall2_compose {A B C} (P : A → B → Prop) (Q : B → C → Prop) l k m :
  Forall2 P l k → Forall2 Q k m → Forall2 (λ x z, ∃ y, P x y ∧ Q y z) l m.
Proof.
  intros H. revert m. induction H as [|x y l k Hxy _ IH]; intros m Hm.
  - inversion Hm. constructor.
  - inversion Hm as [|y' z k' m' Hyz Hkm]; subst. constructor; eauto.
Qed.

Lemma length_zero_empty (s : string) : String.length s = 0 ↔ s = "".
Proof. destruct s; simpl; split; congruence. Qed.

Section EngineProperties.

Context {AST Config RuleCreator : Type}.
Implicit Types (eng : @Engine.TextLintEngine AST Config RuleCreator).

Variable LinterTask_process : @Core.TaskArgs AST Config RuleCreator → TaskRun.
Variable FixerTask_process : @Core.TaskArgs AST Config RuleCreator → TaskRun.
Variable applyFixes :
  @Core.SourceCode AST → option (list TextLintMessage) → Completion Applied.
Variable path_resolve : string → string.
Variable path_extname : string → string.
Variable readFileSync : string → Completion string.
Variable findFiles : list string → list string → Completion (list string).

#[local] Abbreviation lintFile :=
  (Core.lintFile LinterTask_process path_resolve path_extname readFileSync).
#[local] Abbreviation fixFile :=
  (Core.fixFile FixerTask_process applyFixes path_resolve path_extname readFileSync).
#[local] Abbreviation lint_results :=
  (Engine.lint_results LinterTask_process path_resolve path_extname readFileSync findFiles).
#[local] Abbreviation fix_results :=
  (Engine.fix_results FixerTask_process applyFixes path_resolve path_extname
                      readFileSync findFiles).
#[local] Abbreviation executeOnFiles :=
  (Engine.executeOnFiles LinterTask_process path_resolve path_extname readFileSync
                         findFiles).
#[local] Abbreviation fixFiles :=
  (Engine.fixFiles FixerTask_process applyFixes path_resolve path_extname
                   readFileSync findFiles).
#[local] Abbreviation executeOnText :=
  (Engine.executeOnText LinterTask_process path_extname).
#[local] Abbreviation fixText :=
  (Engine.fixText FixerTask_process applyFixes path_extname).

(** The values of a fulfilled [Promise.all] over the pipelines [runs]. *)
Lemma all_runs_sound {R} (runs : list (@Core.Run AST Config RuleCreator R)) order vs :
  NoDup order →
  Promise_all (Core.promise <$> runs) order = Fulfilled vs →
  Forall2 (λ run v, ∃ r, Core.promise run = Fulfilled r ∧ v = Some r) runs vs.
Proof.
  intros Hnd Hall. apply Promise_all_sound in Hall; [|done].
  by apply Forall2_fmap_l in Hall.
Qed.

(** With the targets found, the array [results] is the map of the
    pipeline over them. *)
Lemma lint_results_found eng files targets :
  findFiles files (Engine.availableExtensions eng) = Return targets →
  lint_results eng files = map_throwing (lintFile (Engine.textLint eng)) targets.
Proof. intros Hfind. unfold Engine.lint_results. by rewrite Hfind. Qed.

Lemma fix_results_found eng files targets :
  findFiles files (Engine.availableExtensions eng) = Return targets →
  fix_results eng files = map_throwing (fixFile (Engine.textLint eng)) targets.
Proof. intros Hfind. unfold Engine.fix_results. by rewrite Hfind. Qed.

(** [C7] Whenever [executeOnFiles] or [fixFiles] is fulfilled, in whatever
    order the pipelines of the targets completed, the array of results has
    one entry per target [findFiles] returned, and the entry at each index
    is the result of the pipeline of the target at that index. When every
    pipeline is fulfilled and each completes once, in any order, the
    operation is fulfilled with the results in the order of the targets. *)
Theorem results_keep_target_order eng files order targets :
  NoDup order →
  findFiles files (Engine.availableExtensions eng) = Return targets →
  (∀ vs, executeOnFiles eng files order = Return (Fulfilled vs) →
     Forall2 (λ file v, ∃ run r, lintFile (Engine.textLint eng) file = Return run ∧
                                 Core.promise run = Fulfilled r ∧ v = Some r)
             targets vs) ∧
  (∀ vs, fixFiles eng files order = Return (Fulfilled vs) →
     Forall2 (λ file v, ∃ run r, fixFile (Engine.textLint eng) file = Return run ∧
                                 Core.promise run = Fulfilled r ∧ v = Some r)
             targets vs) ∧
  (∀ runs rs, lint_results eng files = Return runs →
     Core.promise <$> runs = Fulfilled <$> rs →
     order ≡ₚ seq 0 (length targets) →
     executeOnFiles eng files order = Return (Fulfilled (Some <$> rs))) ∧
  (∀ runs rs, fix_results eng files = Return runs →
     Core.promise <$> runs = Fulfilled <$> rs →
     order ≡ₚ seq 0 (length targets) →
     fixFiles eng files order = Return (Fulfilled (Some <$> rs))).
Proof.
  intros Hnd Hfind. split; [|split; [|split]].
  - intros vs. unfold Engine.executeOnFiles.
    destruct (lint_results eng files) as [runs|e] eqn:Hruns; [|discriminate].
    intros [= Hall]. apply all_runs_sound in Hall; [|done].
    rewrite (lint_results_found _ _ _ Hfind) in Hruns.
    apply map_throwing_Return in Hruns.
    eapply Forall2_impl; [exact (Forall2_compose _ _ _ _ _ Hruns Hall)|].
    intros file v (run & Hrun & r & Hr & ->). eauto.
  - intros vs. unfold Engine.fixFiles.
    destruct (fix_results eng files) as [runs|e] eqn:Hruns; [|discriminate].
    intros [= Hall]. apply all_runs_sound in Hall; [|done].
    rewrite (fix_results_found _ _ _ Hfind) in Hruns.
    apply map_throwing_Return in Hruns.
    eapply Forall2_impl; [exact (Forall2_compose _ _ _ _ _ Hruns Hall)|].
    intros file v (run & Hrun & r & Hr & ->). eauto.
  - intros runs rs Hruns Hrs Hperm. unfold Engine.executeOnFiles. rewrite Hruns.
    f_equal. apply Promise_all_fulfilled; [done|].
    rewrite (lint_results_found _ _ _ Hfind) in Hruns.
    apply map_throwing_Return, Forall2_length in Hruns.
    rewrite length_fmap. by rewrite <- Hruns.
  - intros runs rs Hruns Hrs Hperm. unfold Engine.fixFiles. rewrite Hruns.
    f_equal. apply Promise_all_fulfilled; [done|].
    rewrite (fix_results_found _ _ _ Hfind) in Hruns.
    apply map_throwing_Return, Forall2_length in Hruns.
    rewrite length_fmap. by rewrite <- Hruns.
Qed.

Lemma actualExt_empty ext :
  String.length (Engine.actualExt path_extname ext) = 0 ↔
  Engine.starts_with_dot ext = false ∧ path_extname ext = "".
Proof.
  unfold Engine.actualExt. destruct (Engine.starts_with_dot ext) eqn:Hdot.
  - destruct ext as [|c s]; [discriminate|]. simpl. split; [lia|]. by intros [? _].
  - rewrite length_zero_empty. split; [done|]. by intros [_ ?].
Qed.

(** [C9] [executeOnText] and [fixText] throw the Error "should specify the
    extension" exactly when the extension given does not start with "."
    and [path.extname] of it is empty. In particular they do not throw it
    for an extension that starts with ".". *)
Theorem extension_required eng text ext :
  (executeOnText eng text ext = Throw (Error Engine.should_specify) ↔
   Engine.starts_with_dot ext = false ∧ path_extname ext = "") ∧
  (fixText eng text ext = Throw (Error Engine.should_specify) ↔
   Engine.starts_with_dot ext = false ∧ path_extname ext = "").
Proof.
  rewrite <- actualExt_empty. unfold Engine.executeOnText, Engine.fixText.
  split; case_decide as Hlen; split; try done.
  - unfold Engine.in_singleton.
    destruct (Core.lintText _ _ _ _) as [run|e] eqn:Hlint; [discriminate|].
    apply lintText_Throw in Hlint as ->. discriminate.
  - unfold Engine.in_singleton.
    destruct (Core.fixText _ _ _ _ _) as [run|e] eqn:Hfix; [discriminate|].
    apply fixText_Throw in Hfix as ->. discriminate.
Qed.

End EngineProperties.

(** ** The choice of the processor *)

Section Processors.

Context {AST Config RuleCreator : Type}.
Implicit Types (core : @Core.TextlintCore AST Config RuleCreator).
Implicit Types (ps : list (@Core.Processor AST)).

(** The processor chosen declares the extension, and no processor before
    it in the list does. *)
Lemma getProcessorMatchExtension_Some ps ext (p : @Core.Processor AST) :
  Core.getProcessorMatchExtension ps ext = Some p ↔
  ∃ before after_,
    ps = before ++ p :: after_ ∧ ext ∈ Core.availableExtensions p ∧
    Forall (λ q, ext ∉ Core.availableExtensions q) before.
Proof.
  unfold Core.getProcessorMatchExtension. split.
  - induction ps as [|q ps IH]; simpl; [discriminate|].
    case_bool_decide as Hq.
    + intros [= <-]. exists [], ps. by repeat split.
    + intros Hfind. destruct (IH Hfind) as (before & after_ & -> & Hin & Hnot).
      exists (q :: before), after_. repeat split; [done|]. by constructor.
  - intros (before & after_ & -> & Hin & Hnot).
    induction Hnot as [|q before Hq _ IH]; simpl.
    + by rewrite bool_decide_eq_true_2.
    + by rewrite bool_decide_eq_false_2.
Qed.

Lemma getProcessorMatchExtension_None ps ext :
  Core.getProcessorMatchExtension ps ext = None ↔
  Forall (λ q, ext ∉ Core.availableExtensions q) ps.
Proof.
  unfold Core.getProcessorMatchExtension.
  induction ps as [|q ps IH]; simpl; [by split; [constructor|]|].
  case_bool_decide as Hq.
  - split; [discriminate|]. by inversion 1.
  - rewrite IH. split; [by constructor|]. by inversion 1.
Qed.

(** A processor added last is asked first. *)
Lemma addProcessor_overrides core (P : Config → @Core.Processor AST) ext :
  ext ∈ Core.availableExtensions (P (Core.config core)) →
  Core.getProcessorMatchExtension (Core.processors (Core.addProcessor P core)) ext =
  Some (P (Core.config core)).
Proof.
  intros Hin. unfold Core.getProcessorMatchExtension. simpl.
  by rewrite bool_decide_eq_true_2.
Qed.

Lemma addProcessor_falls_through core (P : Config → @Core.Processor AST) ext :
  ext ∉ Core.availableExtensions (P (Core.config core)) →
  Core.getProcessorMatchExtension (Core.processors (Core.addProcessor P core)) ext =
  Core.getProcessorMatchExtension (Core.processors core) ext.
Proof.
  intros Hin. unfold Core.getProcessorMatchExtension. simpl.
  by rewrite bool_decide_eq_false_2.
Qed.

End Processors.

(** * The pipelines on the plain-text setting *)

Section Instances.

#[local] Abbreviation lintText := (Core.lintText Sample.LinterTask_process).
#[local] Abbreviation fixText := (Core.fixText Sample.FixerTask_process Sample.applyFixes).
#[local] Abbreviation _lintByProcessor := (Core._lintByProcessor Sample.LinterTask_process).
#[local] Abbreviation _fixProcess :=
  (Core._fixProcess Sample.FixerTask_process Sample.applyFixes).
#[local] Abbreviation fixFile :=
  (Core.fixFile Sample.FixerTask_process Sample.applyFixes Sample.path_resolve
                NodePath.extname Sample.readFileSync).
#[local] Abbreviation executeOnFiles :=
  (Engine.executeOnFiles Sample.LinterTask_process Sample.path_resolve
                         NodePath.extname Sample.readFileSync Sample.findFiles).
#[local] Abbreviation fixFiles :=
  (Engine.fixFiles Sample.FixerTask_process Sample.applyFixes Sample.path_resolve
                   NodePath.extname Sample.readFileSync Sample.findFiles).

Example extname_examples :
  NodePath.extname <$> ["txt"; ""; "a.md"; "README"; ".bashrc"; "a/b.c/d"; ".."; "x."] =
  [""; ""; ".md"; ""; ""; ""; ""; "."].
Proof. vm_compute. reflexivity. Qed.

(** Two edits that overlap: the one that starts first is applied. *)
Example resolver_overlap :
  let m1 := Sample.report "r1" "first" (Some (mkFix 0 3 "X")) in
  let m2 := Sample.report "r2" "second" (Some (mkFix 2 5 "Y")) in
  Sample.resolveFixes "abcdefg" [m2; m1] =
  {| fixed := true; output := "Xdefg"; ap_messages := [m2; m1];
     ap_applyingMessages := [m1]; ap_remainingMessages := [m2] |}.
Proof. vm_compute. reflexivity. Qed.

Example resolver_double_space :
  output (Sample.resolveFixes "foo  bar"
            [Sample.report "r" "double space" (Some (mkFix 3 5 " "))]) = "foo bar".
Proof. vm_compute. reflexivity. Qed.

(** Two edits that start at the same offset keep the order they were
    reported in: the first is applied. *)
Example resolver_equal_starts :
  let m1 := Sample.report "r1" "first" (Some (mkFix 0 1 "X")) in
  let m2 := Sample.report "r2" "second" (Some (mkFix 0 1 "Y")) in
  Sample.sort_by_start (omap Sample.with_fix [m1; m2]) =
    [(m1, mkFix 0 1 "X"); (m2, mkFix 0 1 "Y")] ∧
  output (Sample.resolveFixes "abc" [m1; m2]) = "Xbc".
Proof. split; vm_compute; reflexivity. Qed.

(** The rule "b-to-aa" turns "b" into "aa", which "no-double-a" would
    report; "no-double-a" ran before, on "b", and is not asked again. *)
Example later_fix_not_rechecked :
  Sample.task_log (fixText Sample.core "b" ".txt") =
    [(["no-double-a"], "b"); (["b-to-aa"], "b")] ∧
  (∃ r, Sample.observed (fixText Sample.core "b" ".txt") = Return (Fulfilled r) ∧
        fr_output r = "aa") ∧
  emitted (Sample.no_double_a "aa") ≠ [].
Proof.
  split; [vm_compute; reflexivity|]. split; [|vm_compute; discriminate].
  eexists. split; [vm_compute; reflexivity|]. reflexivity.
Qed.

Example lint_in_memory_markdown :
  ∃ ms, Sample.observed (lintText Sample.core "aab" ".md") =
        Return (Fulfilled {| filePath := Str "<markdown>"; messages := Some ms |}).
Proof. eexists. vm_compute. reflexivity. Qed.

Example lint_in_memory_log :
  let core := Core.addProcessor Sample.LogProcessor Sample.core in
  ∃ ms, Sample.observed (lintText core "aab" ".log") =
        Return (Fulfilled {| filePath := Str "<Unkown.log>"; messages := Some ms |}).
Proof. eexists. vm_compute. reflexivity. Qed.

Example lint_broken_processor :
  let core := Core.addProcessor Sample.BrokenProcessor Sample.core in
  Sample.observed (lintText core "aab" ".md") =
  Return (Rejected (AssertionError "postProcess should return { messages, filePath } ")).
Proof. vm_compute. reflexivity. Qed.

(** The Task of the first rule completes, the resolver throws on the
    absent messages: the fix is rejected and the second rule gets no
    Task. *)
Example fix_broken_processor :
  let core := Core.addProcessor Sample.BrokenProcessor Sample.core in
  Sample.observed (fixText core "aab" ".md") =
    Return (Rejected (TypeError "Cannot read property 'slice' of undefined")) ∧
  Sample.task_log (fixText core "aab" ".md") = [(["no-double-a"], "aab")].
Proof. split; vm_compute; reflexivity. Qed.

(** One target whose Task fails rejects the whole [Promise.all]. *)
Example batch_rejects :
  fixFiles Sample.crashing_engine ["a.txt"; "b.md"] [0; 1] =
  Return (Rejected (Error "boom")).
Proof. vm_compute. reflexivity. Qed.

Example order_of_completion :
  (∃ r1 r2, executeOnFiles Sample.engine ["a.txt"; "b.md"] [0; 1] =
            Return (Fulfilled [Some r1; Some r2]) ∧
            filePath r1 = Str "/cwd/a.txt" ∧ filePath r2 = Str "/cwd/b.md") ∧
  executeOnFiles Sample.engine ["a.txt"; "b.md"] [0; 1] =
  executeOnFiles Sample.engine ["a.txt"; "b.md"] [1; 0].
Proof.
  split; [|vm_compute; reflexivity].
  eexists. eexists. split; [vm_compute; reflexivity|]. split; reflexivity.
Qed.

End Instances.

(** * The theorems at the plain-text setting *)

Lemma fix_single_pass_witness :
  let fns := Core.processor (Sample.TextProcessor ()) ".txt" in
  ∃ run,
    Core._fixProcess Sample.FixerTask_process Sample.applyFixes Sample.core
      (Some (Sample.TextProcessor ())) "aab" ".txt" Undefined = Return run ∧
    Core.tasks run !! 0 =
      Some (Core.step_task Sample.core fns ".txt" Undefined
              ("no-double-a", Core.mkRule Sample.no_double_a (Some Sample.no_double_a))
              "aab") ∧
    Core.tasks run !! 1 =
      Some (Core.step_task Sample.core fns ".txt" Undefined
              ("b-to-aa", Core.mkRule Sample.b_to_aa (Some Sample.b_to_aa)) "ab") ∧
    ∃ r, Core.promise run = Fulfilled r ∧ fr_output r = "ab".
Proof.
  intros fns.
  destruct (fix_single_pass Sample.FixerTask_process Sample.applyFixes Sample.core
              (Sample.TextProcessor ()) "aab" ".txt" Undefined)
    as (run & Hrun & _ & _ & Hfirst & Hnext & Hend & _).
  exists run. split; [exact Hrun|].
  pose proof (Hfirst _ eq_refl) as H0.
  assert (Core.tasks run !! 1 =
            Some (Core.step_task Sample.core fns ".txt" Undefined
                    ("b-to-aa", Core.mkRule Sample.b_to_aa (Some Sample.b_to_aa)) "ab"))
    as H1.
  { apply (Hnext 0 _ "ab" _ H0); [|reflexivity].
    split; [reflexivity|]. eexists. eexists.
    split; [reflexivity|]. split; [reflexivity|]. reflexivity. }
  split; [exact H0|]. split; [exact H1|].
  apply (Hend 1 _ "ab" H1); [|reflexivity].
  split; [reflexivity|]. eexists. eexists.
  split; [reflexivity|]. split; [reflexivity|]. reflexivity.
Defined.

Lemma fix_step_threads_text_witness :
  ∃ run t t' r,
    Core._fixProcess Sample.FixerTask_process Sample.applyFixes Sample.core
      (Some (Sample.TextProcessor ())) "aab" ".txt" Undefined = Return run ∧
    Core.tasks run !! 0 = Some t ∧ Core.sc_text (Core.t_sourceCode t) = "aab" ∧
    Core.tasks run !! 1 = Some t' ∧ Core.sc_text (Core.t_sourceCode t') = "ab" ∧
    Core.promise run = Fulfilled r ∧ fr_output r = "ab".
Proof.
  pose proof (fix_step_threads_text Sample.FixerTask_process Sample.applyFixes
                Sample.core (Sample.TextProcessor ()) "aab" ".txt" Undefined
                _ 0 _ _ _ eq_refl eq_refl eq_refl eq_refl eq_refl)
    as (Hfirst & Hnext & _).
  destruct (Hnext ltac:(vm_compute; lia)) as (t' & Ht' & _ & Hfixed).
  pose proof (fix_step_threads_text Sample.FixerTask_process Sample.applyFixes
                Sample.core (Sample.TextProcessor ()) "aab" ".txt" Undefined
                _ 1 _ _ _ eq_refl eq_refl eq_refl eq_refl eq_refl)
    as (_ & _ & Hlast).
  destruct (Hlast eq_refl) as (r & Hr & Hsame & _).
  eexists. eexists. exists t', r.
  split; [reflexivity|]. split; [reflexivity|]. split; [exact (Hfirst eq_refl)|].
  split; [exact Ht'|]. split; [exact (Hfixed eq_refl)|].
  split; [exact Hr|]. exact (Hsame eq_refl).
Defined.

Lemma no_processor_found_witness :
  Core.getProcessorMatchExtension (Core.processors Sample.core) ".xyz" = None ∧
  Core.lintText Sample.LinterTask_process Sample.core "aab" ".xyz" =
    Throw (AssertionError "processor is not found for .xyz") ∧
  Core.fixText Sample.FixerTask_process Sample.applyFixes Sample.core "aab" ".xyz" =
    Throw (TypeError "Cannot read property 'processor' of null").
Proof.
  split; [reflexivity|].
  exact (no_processor_found Sample.LinterTask_process Sample.FixerTask_process
           Sample.applyFixes Sample.core "aab" ".xyz" eq_refl).
Defined.


Lemma task_failure_rejects_target_witness :
  ∃ run,
    Core._fixProcess Sample.FixerTask_process Sample.applyFixes Sample.crashing_core
      (Some (Sample.TextProcessor ())) "aab" ".txt" Undefined = Return run ∧
    Core.promise run = Rejected (Error "boom") ∧ length (Core.tasks run) = 2.
Proof.
  eexists. split; [reflexivity|].
  eapply (proj1 (proj2 (task_failure_rejects_target Sample.LinterTask_process
                          Sample.FixerTask_process Sample.applyFixes Sample.path_resolve
                          NodePath.extname Sample.readFileSync Sample.findFiles))
            Sample.crashing_core (Sample.TextProcessor ()) "aab" ".txt" Undefined _ 1).
  - reflexivity.
  - reflexivity.
  - reflexivity.
Defined.

Lemma task_rule_sets_witness :
  ∃ run t,
    Core._lintByProcessor Sample.LinterTask_process Sample.core
      (Some (Sample.TextProcessor ())) "aab" ".txt" Undefined = Return run ∧
    Core.tasks run = [t] ∧ Core.t_rules t = Core.rules Sample.core.
Proof.
  eexists.
  destruct (proj2 (task_rule_sets Sample.LinterTask_process Sample.FixerTask_process
                     Sample.applyFixes Sample.core (Some (Sample.TextProcessor ()))
                     "aab" ".txt" Undefined) _ eq_refl) as (t & Ht & Hrules).
  exists t. split; [reflexivity|]. split; [exact Ht | exact Hrules].
Defined.

Lemma results_keep_target_order_witness :
  NoDup [1; 0] ∧
  Sample.findFiles ["a.txt"; "b.md"] (Engine.availableExtensions Sample.engine) =
    Return ["a.txt"; "b.md"] ∧
  ∃ vs,
    Engine.executeOnFiles Sample.LinterTask_process Sample.path_resolve NodePath.extname
      Sample.readFileSync Sample.findFiles Sample.engine ["a.txt"; "b.md"] [1; 0] =
    Return (Fulfilled vs) ∧
    Forall2 (λ file v, ∃ run r,
               Core.lintFile Sample.LinterTask_process Sample.path_resolve
                 NodePath.extname Sample.readFileSync (Engine.textLint Sample.engine) file =
               Return run ∧ Core.promise run = Fulfilled r ∧ v = Some r)
            ["a.txt"; "b.md"] vs.
Proof.
  assert (NoDup [1; 0]) as Hnd.
  { apply (bool_decide_unpack _). vm_compute. exact I. }
  assert (Sample.findFiles ["a.txt"; "b.md"]
            (Engine.availableExtensions Sample.engine) = Return ["a.txt"; "b.md"]) as Hfind
    by (vm_compute; reflexivity).
  split; [exact Hnd|]. split; [exact Hfind|]. eexists. split; [vm_compute; reflexivity|].
  apply (proj1 (results_keep_target_order Sample.LinterTask_process
                  Sample.FixerTask_process Sample.applyFixes Sample.path_resolve
                  NodePath.extname Sample.readFileSync Sample.findFiles Sample.engine
                  ["a.txt"; "b.md"] [1; 0] _ Hnd Hfind)).
  vm_compute. reflexivity.
Defined.

Lemma extension_required_witness :
  Engine.starts_with_dot "txt" = false ∧ NodePath.extname "txt" = "" ∧
  Engine.executeOnText Sample.LinterTask_process NodePath.extname Sample.engine "aa" "txt" =
    Throw (Error Engine.should_specify).
Proof.
  split; [reflexivity|]. split; [reflexivity|].
  apply (proj2 (proj1 (extension_required Sample.LinterTask_process
                         Sample.FixerTask_process Sample.applyFixes NodePath.extname
                         Sample.engine "aa" "txt"))).
  split; reflexivity.
Defined.

Lemma fix_without_fixers_is_identity_witness :
  (∀ kr, kr ∈ Core.rules Sample.lint_only_core → Core.fixer kr.2 = None) ∧
  Core.fixText Sample.FixerTask_process Sample.applyFixes Sample.lint_only_core "aab" ".txt" =
  Return {| Core.promise :=
              Fulfilled {| fr_filePath := Undefined; fr_output := "aab";
                           fr_originalMessages := [];
                           fr_applyingMessages := [];
                           fr_remainingMessages := [] |};
            Core.tasks := [] |}.
Proof.
  assert (∀ kr, kr ∈ Core.rules Sample.lint_only_core → Core.fixer kr.2 = None) as Hnone.
  { intros kr Hkr.
    change (kr ∈ [("always-warn"%string, Core.mkRule Sample.always_warn None)]) in Hkr.
    apply list_elem_of_singleton in Hkr. rewrite Hkr. reflexivity. }
  split; [exact Hnone|].
  exact (proj1 (fix_without_fixers_is_identity Sample.FixerTask_process Sample.applyFixes
                  Sample.path_resolve NodePath.extname Sample.readFileSync
                  Sample.lint_only_core Hnone)
               "aab" ".txt" (Sample.TextProcessor ()) eq_refl).
Defined.

(** * Further properties of the pipelines *)


Lemma map_throwing_Throw {A B} (f : A → Completion B) (l : list A) (e : JsError) :
  map_throwing f l = Throw e ↔
  ∃ before x after_,
    l = before ++ x :: after_ ∧ f x = Throw e ∧
    Forall (λ y, ∃ b, f y = Return b) before.
Proof.
  split.
  - induction l as [|x l IH]; simpl; [discriminate|].
    destruct (f x) as [y|e'] eqn:Hx.
    + destruct (map_throwing f l) as [ys|e'] eqn:Hl; [discriminate|].
      intros [= ->]. destruct (IH eq_refl) as (before & x' & after_ & -> & Hx' & Hb).
      exists (x :: before), x', after_. split; [done|]. split; [done|].
      constructor; [by exists y | done].
    + intros [= ->]. exists [], x, l. split; [done|]. split; [done|]. constructor.
  - intros (before & x & after_ & -> & Hx & Hb).
    induction Hb as [|y before [b Hy] _ IH]; simpl.
    + by rewrite Hx.
    + by rewrite Hy, IH.
Qed.

Section MorePipelineProperties.

Context {AST Config RuleCreator : Type}.
Implicit Types (core : @Core.TextlintCore AST Config RuleCreator).
Implicit Types (proc : @Core.Processor AST).
Implicit Types (t : @Core.TaskArgs AST Config RuleCreator).
Implicit Types (kr : string * @Core.Rule RuleCreator).
Implicit Types (l : list (string * @Core.Rule RuleCreator)).

Variable LinterTask_process : @Core.TaskArgs AST Config RuleCreator → TaskRun.
Variable FixerTask_process : @Core.TaskArgs AST Config RuleCreator → TaskRun.
Variable applyFixes :
  @Core.SourceCode AST → option (list TextLintMessage) → Completion Applied.
Variable path_resolve : string → string.
Variable path_extname : string → string.
Variable readFileSync : string → Completion string.

#[local] Abbreviation _lintByProcessor := (Core._lintByProcessor LinterTask_process).
#[local] Abbreviation _fixProcess := (Core._fixProcess FixerTask_process applyFixes).
#[local] Abbreviation lintFile :=
  (Core.lintFile LinterTask_process path_resolve path_extname readFileSync).
#[local] Abbreviation fixFile :=
  (Core.fixFile FixerTask_process applyFixes path_resolve path_extname readFileSync).
#[local] Abbreviation reduce_fixers := (Core.reduce_fixers FixerTask_process applyFixes).
#[local] Abbreviation then_fixerProcess :=
  (Core.then_fixerProcess FixerTask_process applyFixes).

Lemma rule_enabled_true (cfg : gmap string RuleOption) (key : string) :
  Core.rule_enabled cfg key = true ↔ cfg !! key ≠ Some OptFalse.
Proof.
  unfold Core.rule_enabled. destruct (cfg !! key) as [[| |json]|]; split; done.
Qed.

Lemma tasks_of_lint core proc text ext fp run t :
  _lintByProcessor core (Some proc) text ext fp = Return run →
  t ∈ Core.tasks run →
  t = Core.lint_task core (Core.preProcess (Core.processor proc ext) text fp) text ext fp.
Proof.
  rewrite lint_promise. intros [= <-]. simpl. intros Ht.
  by apply list_elem_of_singleton in Ht.
Qed.

Lemma tasks_of_fix core proc text ext fp run t :
  _fixProcess core (Some proc) text ext fp = Return run →
  t ∈ Core.tasks run →
  ∃ kr s, kr ∈ Core.fixerRules core ∧
          t = Core.step_task core (Core.processor proc ext) ext fp kr s.
Proof.
  rewrite fixProcess_Return. intros [= <-]. simpl. intros Ht.
  apply list_elem_of_lookup in Ht as [i Hi].
  destruct (reduce_tasks FixerTask_process applyFixes core (Core.processor proc ext)
              ext fp text (Core.fixerRules core)) as (_ & _ & _ & Hlook).
  destruct (Hlook i t Hi) as (kr & s & Hl & _ & ->).
  exists kr, s. split; [|done]. by apply list_elem_of_lookup_2 in Hl.
Qed.

(** After [setupRules(rules, rulesConfig)], the Task of a lint carries the
    registered rules whose configuration is not [false], in the order they
    were registered in, together with the configuration as given; every
    rule carried by a Task of a fix is a registered rule that has a fixer
    and whose configuration is not [false]. *)
Theorem disabled_rules_never_run core rs cfg p text ext fp :
  let core' := Core.setupRules rs cfg core in
  (∀ run t, _lintByProcessor core' p text ext fp = Return run → t ∈ Core.tasks run →
     Core.t_rules t = filter (λ kr, cfg !! kr.1 ≠ Some OptFalse) rs ∧
     Core.t_rulesConfig t = cfg) ∧
  (∀ run t kr, _fixProcess core' p text ext fp = Return run → t ∈ Core.tasks run →
     kr ∈ Core.t_rules t →
     kr ∈ rs ∧ cfg !! kr.1 ≠ Some OptFalse ∧ is_Some (Core.fixer kr.2)).
Proof.
  intros core'. split.
  - intros run t Hrun Ht. destruct p as [proc|]; [|discriminate].
    rewrite (tasks_of_lint _ _ _ _ _ _ _ Hrun Ht). simpl. split; [|done].
    unfold Core.ignoreDisableRules. apply list_filter_iff.
    intros kr. apply rule_enabled_true.
  - intros run t kr Hrun Ht Hkr. destruct p as [proc|]; [|discriminate].
    destruct (tasks_of_fix _ _ _ _ _ _ _ Hrun Ht) as (kr' & s & Hin & ->).
    simpl in Hkr. apply list_elem_of_singleton in Hkr as ->.
    unfold Core.fixerRules in Hin. apply list_elem_of_filter in Hin as [Hfix Hin].
    simpl in Hin. unfold Core.ignoreDisableRules in Hin.
    apply list_elem_of_filter in Hin as [Hen Hin].
    split; [done|]. split; [by apply rule_enabled_true | done].
Qed.

(** The promise of a lint follows its Task: it stays pending exactly when
    the Task stalls; it is rejected exactly when the Task fails, with the
    error of the failure, or when the Task completes and the [complete]
    handler throws ([postProcess], the assertion on its result, or the read
    of the length of absent messages), with what it throws; it is fulfilled
    exactly when the Task completes and the handler gets to [resolve], with
    the result it resolves. *)
Theorem lint_outcome_follows_task core proc text ext fp run :
  _lintByProcessor core (Some proc) text ext fp = Return run →
  let fns := Core.processor proc ext in
  let task := Core.lint_task core (Core.preProcess fns text fp) text ext fp in
  let handler := Core.lint_complete fns ext fp (emitted (LinterTask_process task)) in
  (∀ e, Core.promise run = Rejected e ↔
        ending (LinterTask_process task) = Failure e ∨
        (ending (LinterTask_process task) = Done ∧ handler = Throw e)) ∧
  (∀ r, Core.promise run = Fulfilled r ↔
        ending (LinterTask_process task) = Done ∧ handler = Return r) ∧
  (Core.promise run = Pending ↔ ending (LinterTask_process task) = Stalled).
Proof.
  intros Hrun fns task handler. rewrite lint_promise in Hrun. injection Hrun as <-.
  simpl. fold fns. fold task. fold handler.
  destruct (ending (LinterTask_process task)) as [|e'|] eqn:He;
    [destruct handler as [r'|e']| |];
    (split; [intros e; split; [intros [= <-]; eauto|
                                intros [[= <-]|[[= ] [= <-]]]; done]
            |split; [intros r; split; [intros [= <-]; eauto|intros [[= ] [= <-]]; done]
                    |split; [intros [= ]; done|intros [= ]; done]]]).
Qed.


(** The Task of [lintFile] gets the content of the file, the extension of
    the resolved path and the resolved path itself; the Tasks of [fixFile]
    get the same extension but the path as it was given. *)
Theorem file_path_given_to_tasks core file :
  let absoluteFilePath := path_resolve file in
  (∀ run t, lintFile core file = Return run → t ∈ Core.tasks run →
     readFileSync absoluteFilePath = Return (Core.sc_text (Core.t_sourceCode t)) ∧
     Core.sc_ext (Core.t_sourceCode t) = path_extname absoluteFilePath ∧
     Core.sc_filePath (Core.t_sourceCode t) = Str absoluteFilePath) ∧
  (∀ run t, fixFile core file = Return run → t ∈ Core.tasks run →
     Core.sc_ext (Core.t_sourceCode t) = path_extname absoluteFilePath ∧
     Core.sc_filePath (Core.t_sourceCode t) = Str file).
Proof.
  intros absoluteFilePath. unfold Core.lintFile, Core.fixFile. fold absoluteFilePath.
  split; intros run t; destruct (readFileSync absoluteFilePath) as [text|e];
    try discriminate;
    destruct (Core.getProcessorMatchExtension _ _) as [proc|]; try discriminate;
    intros Hrun Ht.
  - by rewrite (tasks_of_lint _ _ _ _ _ _ _ Hrun Ht).
  - by destruct (tasks_of_fix _ _ _ _ _ _ _ Hrun Ht) as (kr & s & _ & ->).
Qed.

End MorePipelineProperties.

Section FixResultProperties.

Context {AST Config RuleCreator : Type}.
Implicit Types (core : @Core.TextlintCore AST Config RuleCreator).
Implicit Types (proc : @Core.Processor AST) (fns : @Core.ProcessorFns AST).
Implicit Types (t : @Core.TaskArgs AST Config RuleCreator).
Implicit Types (kr : string * @Core.Rule RuleCreator).
Implicit Types (l : list (string * @Core.Rule RuleCreator)).

Variable FixerTask_process : @Core.TaskArgs AST Config RuleCreator → TaskRun.
Variable applyFixes :
  @Core.SourceCode AST → option (list TextLintMessage) → Completion Applied.

#[local] Abbreviation _fixProcess := (Core._fixProcess FixerTask_process applyFixes).
#[local] Abbreviation reduce_fixers := (Core.reduce_fixers FixerTask_process applyFixes).
#[local] Abbreviation then_fixerProcess :=
  (Core.then_fixerProcess FixerTask_process applyFixes).
#[local] Abbreviation handler fns fp t :=
  (Core.step_applied applyFixes fns fp (Core.t_sourceCode t)
     (emitted (FixerTask_process t))).
#[local] Abbreviation step_promise fns fp t :=
  (match ending (FixerTask_process t) with
   | Done =>
       match handler fns fp t with
       | Return pa =>
           Fulfilled (if fixed pa.2 then output pa.2
                      else Core.sc_text (Core.t_sourceCode t))
       | Throw e => Rejected e
       end
   | Failure e => Rejected e
   | Stalled => Pending
   end).
#[local] Abbreviation answered fns fp t pa :=
  (Core.postProcess fns (emitted (FixerTask_process t)) fp = Return pa.1 ∧
   applyFixes (Core.t_sourceCode t) (messages pa.1) = Return pa.2).

(** A fulfilled chain comes from a fulfilled chain. *)
Lemma reduce_snoc_fulfilled core fns ext fp text l kr s' :
  Core.ff_promise (reduce_fixers core fns ext fp text (l ++ [kr])) = Fulfilled s' →
  ∃ s post applied,
    Core.ff_promise (reduce_fixers core fns ext fp text l) = Fulfilled s ∧
    let task := Core.step_task core fns ext fp kr s in
    ending (FixerTask_process task) = Done ∧
    answered fns fp task (post, applied) ∧
    s' = (if fixed applied then output applied else s) ∧
    Core.ff_tasks (reduce_fixers core fns ext fp text (l ++ [kr])) =
      Core.ff_tasks (reduce_fixers core fns ext fp text l) ++ [task] ∧
    Core.ff_shared (reduce_fixers core fns ext fp text (l ++ [kr])) =
      Core.pushed (Core.ff_shared (reduce_fixers core fns ext fp text l)) post applied.
Proof.
  rewrite reduce_snoc.
  destruct (Core.ff_promise (reduce_fixers core fns ext fp text l)) as [|s|e] eqn:Hp.
  - rewrite then_fixerProcess_stuck by (rewrite Hp; done). by rewrite Hp.
  - destruct (then_fixerProcess_fulfilled FixerTask_process applyFixes core fns ext fp
                _ kr s Hp) as (Ht & -> & Hs).
    intros Hnext. apply step_promise_Fulfilled in Hnext
      as (Hdone & post & applied & Hpost & Happlied & ->).
    exists s, post, applied. split; [done|]. simpl.
    split; [done|]. split; [done|]. split; [done|]. split; [done|].
    apply Hs; [done|]. by apply step_applied_Return.
  - rewrite then_fixerProcess_stuck by (rewrite Hp; done). by rewrite Hp.
Qed.

Lemma reduce_shared core fns ext fp text l s :
  let acc := reduce_fixers core fns ext fp text l in
  Core.ff_promise acc = Fulfilled s →
  ∃ steps : list (TextLintResult * Applied),
    Forall2 (λ t pa, answered fns fp t pa) (Core.ff_tasks acc) steps ∧
    Core.applyingMessages (Core.ff_shared acc) =
      concat ((λ pa, ap_applyingMessages pa.2) <$> steps) ∧
    Core.remainingMessages (Core.ff_shared acc) =
      concat ((λ pa, ap_remainingMessages pa.2) <$> steps) ∧
    Core.originalMessages (Core.ff_shared acc) =
      concat ((λ pa, ap_messages pa.2) <$> steps) ∧
    Core.resultFilePath (Core.ff_shared acc) =
      match last steps with
      | Some pa => filePath pa.1
      | None => fp
      end.
Proof.
  simpl. revert s. induction l as [|kr l IH] using rev_ind; intros s' Hs'.
  - exists []. by repeat split.
  - apply reduce_snoc_fulfilled in Hs'
      as (s & post & applied & Hs & _ & Hanswered & _ & Ht & Hsh).
    destruct (IH s Hs) as (steps & Hsteps & Ha & Hr & Ho & _).
    exists (steps ++ [(post, applied)]).
    rewrite Ht, Hsh, !fmap_app, !concat_app, last_snoc. simpl.
    rewrite !app_nil_r, Ha, Hr, Ho.
    split; [|done]. apply Forall2_app; [done|]. by constructor.
Qed.

(** The three arrays of a fulfilled fix are the resolver's lists of every
    step, in the order of the steps, one after the other, with nothing
    dropped or merged; its [filePath] is the one of the post-process result
    of the last step, and the path given when no step ran. In every step of
    a fulfilled fix [postProcess] and [applyFixes] returned. *)
Theorem fix_result_accumulates core proc text ext fp run r :
  _fixProcess core (Some proc) text ext fp = Return run →
  Core.promise run = Fulfilled r →
  let fns := Core.processor proc ext in
  ∃ steps : list (TextLintResult * Applied),
    Forall2 (λ t pa,
               Core.postProcess fns (emitted (FixerTask_process t)) fp = Return pa.1 ∧
               applyFixes (Core.t_sourceCode t) (messages pa.1) = Return pa.2)
            (Core.tasks run) steps ∧
    fr_applyingMessages r = concat ((λ pa, ap_applyingMessages pa.2) <$> steps) ∧
    fr_remainingMessages r = concat ((λ pa, ap_remainingMessages pa.2) <$> steps) ∧
    fr_originalMessages r = concat ((λ pa, ap_messages pa.2) <$> steps) ∧
    fr_filePath r =
      match last steps with
      | Some pa => filePath pa.1
      | None => fp
      end.
Proof.
  rewrite fixProcess_Return. intros [= <-]. simpl. intros Hr.
  apply then_value_fulfilled in Hr as (s & Hs & ->). simpl.
  destruct (reduce_shared core (Core.processor proc ext) ext fp text
              (Core.fixerRules core) s Hs) as (steps & Hsteps & Ha & Hrem & Ho & Hfp).
  exists steps. by rewrite Ha, Hrem, Ho, Hfp.
Qed.

Lemma reduce_unchanged core fns ext fp text l :
  let acc := reduce_fixers core fns ext fp text l in
  (∀ t pa, t ∈ Core.ff_tasks acc → answered fns fp t pa → fixed pa.2 = false) →
  (∀ s, Core.ff_promise acc = Fulfilled s → s = text) ∧
  (∀ t, t ∈ Core.ff_tasks acc → Core.sc_text (Core.t_sourceCode t) = text).
Proof.
  simpl. induction l as [|kr l IH] using rev_ind; intros Hfixed.
  - split; [by intros s [= <-]|]. intros t Ht. by apply elem_of_nil in Ht.
  - rewrite reduce_snoc in *.
    destruct (Core.ff_promise (reduce_fixers core fns ext fp text l)) as [|s|e] eqn:Hp.
    + rewrite then_fixerProcess_stuck in * by (rewrite Hp; done).
      rewrite Hp. destruct (IH Hfixed) as [_ Htext]. split; [discriminate|done].
    + destruct (then_fixerProcess_fulfilled FixerTask_process applyFixes core fns ext fp
                  _ kr s Hp) as (Ht & Hpromise & _).
      rewrite Ht in Hfixed |- *. rewrite Hpromise.
      destruct IH as [Hs Htext].
      { intros t pa Hin. apply Hfixed, elem_of_app. by left. }
      rewrite (Hs s eq_refl) in *.
      split.
      * intros s' Hs'. apply step_promise_Fulfilled in Hs'
          as (_ & post & applied & Hpost & Happlied & ->).
        assert (fixed applied = false) as Hf.
        { apply (Hfixed (Core.step_task core fns ext fp kr text) (post, applied));
            [|done].
          apply elem_of_app. right. by apply list_elem_of_singleton. }
        by rewrite Hf.
      * intros t Hin. apply elem_of_app in Hin as [Hin|Hin]; [by apply Htext|].
        by apply list_elem_of_singleton in Hin as ->.
    + rewrite then_fixerProcess_stuck in * by (rewrite Hp; done).
      rewrite Hp. destruct (IH Hfixed) as [_ Htext]. split; [discriminate|done].
Qed.

(** When the resolver reports [fixed] false in every step of a fix in
    which it answers, every Task saw the text as given and a fulfilled fix
    returns it as output, however many rules took part. *)
Theorem fix_unchanged_without_fixes core proc text ext fp run :
  _fixProcess core (Some proc) text ext fp = Return run →
  let fns := Core.processor proc ext in
  (∀ t post applied, t ∈ Core.tasks run →
     Core.postProcess fns (emitted (FixerTask_process t)) fp = Return post →
     applyFixes (Core.t_sourceCode t) (messages post) = Return applied →
     fixed applied = false) →
  (∀ t, t ∈ Core.tasks run → Core.sc_text (Core.t_sourceCode t) = text) ∧
  (∀ r, Core.promise run = Fulfilled r → fr_output r = text).
Proof.
  rewrite fixProcess_Return. intros [= <-]. simpl. intros Hfixed.
  destruct (reduce_unchanged core (Core.processor proc ext) ext fp text
              (Core.fixerRules core)) as [Hs Htext].
  { intros t [post applied] Ht [Hpost Happlied]. by apply (Hfixed t post applied). }
  split; [done|]. intros r Hr.
  apply then_value_fulfilled in Hr as (s & Hp & ->). simpl. by apply Hs.
Qed.





End FixResultProperties.

(** * Further properties of [Promise.all] and the engine *)

Section MorePromiseAll.

Context {A : Type}.
Implicit Types (ps : list (Promise A)) (order : list nat).

#[local] Abbreviation after ps order := (foldl (all_settle ps) (all_init ps) order).

Lemma Promise_all_nil order : Promise_all (@nil (Promise A)) order = Fulfilled [].
Proof.
  unfold Promise_all. induction order as [|i order IH] using rev_ind; [done|].
  by rewrite after_snoc, all_settle_eq.
Qed.

Lemma all_settle_stays_settled ps (st : AllState A) i :
  all_promise st ≠ Pending → all_promise (all_settle ps st i) ≠ Pending.
Proof.
  intros Hst. rewrite all_settle_eq.
  destruct (ps !! i) as [[|v|e]|]; simpl; try done.
  - case_decide; [|done]. by destruct (all_promise st).
  - by destruct (all_promise st).
Qed.

Lemma settled_after_rejection ps order j e :
  j ∈ order → ps !! j = Some (Rejected e) → all_promise (after ps order) ≠ Pending.
Proof.
  induction order as [|i order IH] using rev_ind; intros Hj Hrej.
  - by apply elem_of_nil in Hj.
  - rewrite after_snoc. apply elem_of_app in Hj as [Hj|Hj].
    + by apply all_settle_stays_settled, IH.
    + apply list_elem_of_singleton in Hj as ->. rewrite all_settle_eq, Hrej. simpl.
      by destruct (all_promise (after ps order)).
Qed.

(** A rejected [Promise.all] carries the reason of the first rejection that
    was reported. *)
Lemma Promise_all_rejected_first ps order e :
  Promise_all ps order = Rejected e →
  ∃ before i after_,
    order = before ++ i :: after_ ∧ ps !! i = Some (Rejected e) ∧
    ∀ j e', j ∈ before → ps !! j ≠ Some (Rejected e').
Proof.
  unfold Promise_all. induction order as [|i order IH] using rev_ind.
  - simpl. by destruct ps.
  - rewrite after_snoc, all_settle_eq.
    assert (all_promise (after ps order) = Rejected e →
            ∃ before k after_, order ++ [i] = before ++ k :: after_ ∧
              ps !! k = Some (Rejected e) ∧
              ∀ j e', j ∈ before → ps !! j ≠ Some (Rejected e')) as Hold.
    { intros Hp. destruct (IH Hp) as (before & k & after_ & -> & Hk & Hb).
      exists before, k, (after_ ++ [i]). by rewrite <- app_assoc. }
    destruct (ps !! i) as [[|v|e']|] eqn:Hi; simpl; try done.
    + case_decide; [|done].
      destruct (all_promise (after ps order)) eqn:Hp; simpl; try done.
    + destruct (all_promise (after ps order)) eqn:Hp; simpl; try done.
      intros [= ->]. exists order, i, []. split; [done|]. split; [done|].
      intros j e' Hj Hrej. by apply (settled_after_rejection ps order j e' Hj Hrej).
Qed.

End MorePromiseAll.

Lemma foldl_app_concat {A B} (f : B → list A) (init : list A) (l : list B) :
  foldl (λ acc x, acc ++ f x) init l = init ++ concat (f <$> l).
Proof.
  revert init. induction l as [|x l IH]; intros init; simpl.
  - by rewrite app_nil_r.
  - by rewrite IH, app_assoc.
Qed.

Lemma elem_of_concat {A} (x : A) (ls : list (list A)) :
  x ∈ concat ls ↔ ∃ l, x ∈ l ∧ l ∈ ls.
Proof.
  rewrite list_elem_of_In, in_concat. split.
  - intros (l & Hl & Hx). exists l. by rewrite !list_elem_of_In.
  - intros (l & Hx & Hl). exists l. by rewrite <- !list_elem_of_In.
Qed.

Section MoreEngineProperties.

Context {AST Config RuleCreator : Type}.
Implicit Types (core : @Core.TextlintCore AST Config RuleCreator).
Implicit Types (eng : @Engine.TextLintEngine AST Config RuleCreator).

Variable LinterTask_process : @Core.TaskArgs AST Config RuleCreator → TaskRun.
Variable FixerTask_process : @Core.TaskArgs AST Config RuleCreator → TaskRun.
Variable applyFixes :
  @Core.SourceCode AST → option (list TextLintMessage) → Completion Applied.
Variable path_resolve : string → string.
Variable path_extname : string → string.
Variable readFileSync : string → Completion string.
Variable findFiles : list string → list string → Completion (list string).

#[local] Abbreviation lintFile :=
  (Core.lintFile LinterTask_process path_resolve path_extname readFileSync).
#[local] Abbreviation fixFile :=
  (Core.fixFile FixerTask_process applyFixes path_resolve path_extname readFileSync).
#[local] Abbreviation lint_results :=
  (Engine.lint_results LinterTask_process path_resolve path_extname readFileSync findFiles).
#[local] Abbreviation fix_results :=
  (Engine.fix_results FixerTask_process applyFixes path_resolve path_extname
                      readFileSync findFiles).
#[local] Abbreviation executeOnFiles :=
  (Engine.executeOnFiles LinterTask_process path_resolve path_extname readFileSync
                         findFiles).
#[local] Abbreviation fixFiles :=
  (Engine.fixFiles FixerTask_process applyFixes path_resolve path_extname
                   readFileSync findFiles).
#[local] Abbreviation executeOnText :=
  (Engine.executeOnText LinterTask_process path_extname).
#[local] Abbreviation fixText :=
  (Engine.fixText FixerTask_process applyFixes path_extname).

(** When [findFiles] finds no target, [executeOnFiles] and [fixFiles] are
    fulfilled with the empty array. *)
Theorem no_targets_no_results eng files order :
  findFiles files (Engine.availableExtensions eng) = Return [] →
  executeOnFiles eng files order = Return (Fulfilled []) ∧
  fixFiles eng files order = Return (Fulfilled []).
Proof.
  intros Hnone.
  unfold Engine.executeOnFiles, Engine.fixFiles, Engine.lint_results, Engine.fix_results.
  rewrite Hnone. simpl. by rewrite !Promise_all_nil.
Qed.

(** [Promise.all] does not throw: the two operations throw what the loop
    over the targets throws. *)
Lemma executeOnFiles_Throw eng files order e :
  executeOnFiles eng files order = Throw e ↔ lint_results eng files = Throw e.
Proof.
  unfold Engine.executeOnFiles. destruct (lint_results eng files); split; congruence.
Qed.

Lemma fixFiles_Throw eng files order e :
  fixFiles eng files order = Throw e ↔ fix_results eng files = Throw e.
Proof.
  unfold Engine.fixFiles. destruct (fix_results eng files); split; congruence.
Qed.

(** [executeOnFiles] and [fixFiles] throw exactly when [findFiles] throws,
    or when it returns the targets and the pipeline of some target throws
    while every target before it returned a promise; they throw what
    [findFiles], or that pipeline, throws. *)
Theorem batch_throws_first_throw eng files order e :
  let found := findFiles files (Engine.availableExtensions eng) in
  (executeOnFiles eng files order = Throw e ↔
     found = Throw e ∨
     ∃ before file after_,
       found = Return (before ++ file :: after_) ∧
       lintFile (Engine.textLint eng) file = Throw e ∧
       Forall (λ f, ∃ run, lintFile (Engine.textLint eng) f = Return run) before) ∧
  (fixFiles eng files order = Throw e ↔
     found = Throw e ∨
     ∃ before file after_,
       found = Return (before ++ file :: after_) ∧
       fixFile (Engine.textLint eng) file = Throw e ∧
       Forall (λ f, ∃ run, fixFile (Engine.textLint eng) f = Return run) before).
Proof.
  intros found. split.
  - rewrite executeOnFiles_Throw. unfold Engine.lint_results. fold found.
    destruct found as [targets|e']; [rewrite map_throwing_Throw|]; split.
    + intros (before & file & after_ & -> & Hrest). right. by exists before, file, after_.
    + intros [?|(before & file & after_ & [= ->] & Hrest)]; [discriminate|].
      by exists before, file, after_.
    + intros [= ->]. by left.
    + intros [[= ->]|(before & file & after_ & ? & _)]; [done|discriminate].
  - rewrite fixFiles_Throw. unfold Engine.fix_results. fold found.
    destruct found as [targets|e']; [rewrite map_throwing_Throw|]; split.
    + intros (before & file & after_ & -> & Hrest). right. by exists before, file, after_.
    + intros [?|(before & file & after_ & [= ->] & Hrest)]; [discriminate|].
      by exists before, file, after_.
    + intros [= ->]. by left.
    + intros [[= ->]|(before & file & after_ & ? & _)]; [done|discriminate].
Qed.

Lemma all_runs_rejected {R} (runs : list (@Core.Run AST Config RuleCreator R)) order e :
  Promise_all (Core.promise <$> runs) order = Rejected e →
  ∃ before i after_ run,
    order = before ++ i :: after_ ∧ runs !! i = Some run ∧
    Core.promise run = Rejected e ∧
    ∀ j run' e', j ∈ before → runs !! j = Some run' → Core.promise run' ≠ Rejected e'.
Proof.
  intros Hall.
  apply Promise_all_rejected_first in Hall as (before & i & after_ & -> & Hi & Hb).
  rewrite list_lookup_fmap in Hi.
  destruct (runs !! i) as [run|] eqn:Hrun; [|discriminate]. injection Hi as Hi.
  exists before, i, after_, run. repeat split; try done.
  intros j run' e' Hj Hrun' Hrej. apply (Hb j e' Hj).
  by rewrite list_lookup_fmap, Hrun', <- Hrej.
Qed.

Lemma all_runs_not_fulfilled {R} (runs : list (@Core.Run AST Config RuleCreator R))
    order i run vs :
  NoDup order → runs !! i = Some run →
  (∀ r, Core.promise run ≠ Fulfilled r) →
  Promise_all (Core.promise <$> runs) order ≠ Fulfilled vs.
Proof.
  intros Hnd Hi Hrun Hall. apply all_runs_sound in Hall; [|done].
  destruct (Forall2_lookup_l _ _ _ _ _ Hall Hi) as (v & _ & r & Hr & _).
  by apply (Hrun r).
Qed.

(** [executeOnFiles] and [fixFiles] give all the results or none: when the
    pipeline of one target is rejected or stays pending, they are not
    fulfilled, whatever the other pipelines did and in whatever order they
    completed. *)
Theorem batch_all_or_nothing eng files order :
  NoDup order →
  (∀ runs i run vs,
     lint_results eng files = Return runs → runs !! i = Some run →
     (∀ r, Core.promise run ≠ Fulfilled r) →
     executeOnFiles eng files order ≠ Return (Fulfilled vs)) ∧
  (∀ runs i run vs,
     fix_results eng files = Return runs → runs !! i = Some run →
     (∀ r, Core.promise run ≠ Fulfilled r) →
     fixFiles eng files order ≠ Return (Fulfilled vs)).
Proof.
  intros Hnd. split; intros runs i run vs Hruns Hi Hrun.
  - unfold Engine.executeOnFiles. rewrite Hruns. intros [= Hall].
    by apply (all_runs_not_fulfilled runs order i run vs).
  - unfold Engine.fixFiles. rewrite Hruns. intros [= Hall].
    by apply (all_runs_not_fulfilled runs order i run vs).
Qed.

(** When [executeOnFiles] or [fixFiles] is rejected, the reason is the one
    of the rejected pipeline that completed first: no pipeline that
    completed before it was rejected. *)
Theorem batch_rejects_with_first_rejection eng files order e :
  (∀ runs, lint_results eng files = Return runs →
     executeOnFiles eng files order = Return (Rejected e) →
     ∃ before i after_ run,
       order = before ++ i :: after_ ∧ runs !! i = Some run ∧
       Core.promise run = Rejected e ∧
       ∀ j run' e', j ∈ before → runs !! j = Some run' →
                    Core.promise run' ≠ Rejected e') ∧
  (∀ runs, fix_results eng files = Return runs →
     fixFiles eng files order = Return (Rejected e) →
     ∃ before i after_ run,
       order = before ++ i :: after_ ∧ runs !! i = Some run ∧
       Core.promise run = Rejected e ∧
       ∀ j run' e', j ∈ before → runs !! j = Some run' →
                    Core.promise run' ≠ Rejected e').
Proof.
  split; intros runs Hruns.
  - unfold Engine.executeOnFiles. rewrite Hruns. intros [= Hall].
    by apply all_runs_rejected.
  - unfold Engine.fixFiles. rewrite Hruns. intros [= Hall].
    by apply all_runs_rejected.
Qed.

(** The extensions the constructor of the engine collects are those of the
    configuration followed by those of every processor, in the order of
    the processors; a processor added with [addProcessor] contributes its
    extensions right after those of the configuration. *)
Theorem engine_availableExtensions core (extensions : list string) :
  Engine.collect_availableExtensions core extensions =
    extensions ++ concat (Core.availableExtensions <$> Core.processors core) ∧
  (∀ ext, ext ∈ Engine.collect_availableExtensions core extensions ↔
          ext ∈ extensions ∨
          ∃ p, p ∈ Core.processors core ∧ ext ∈ Core.availableExtensions p) ∧
  (∀ P, Engine.collect_availableExtensions (Core.addProcessor P core) extensions =
        extensions ++ Core.availableExtensions (P (Core.config core)) ++
        concat (Core.availableExtensions <$> Core.processors core)).
Proof.
  unfold Engine.collect_availableExtensions. split; [apply foldl_app_concat|]. split.
  - intros ext. rewrite foldl_app_concat, elem_of_app. split.
    + intros [?|Hin]; [by left|]. right.
      apply elem_of_concat in Hin as (exts & Hext & Hexts).
      apply list_elem_of_fmap in Hexts as (p & -> & Hp). eauto.
    + intros [?|(p & Hp & Hext)]; [by left|]. right.
      apply elem_of_concat. exists (Core.availableExtensions p). split; [done|].
      apply list_elem_of_fmap. eauto.
  - intros P. by rewrite foldl_app_concat.
Qed.

(** Every extension collected from the processors alone has a processor. *)
Lemma available_extension_has_processor core ext :
  ext ∈ Engine.collect_availableExtensions core [] →
  is_Some (Core.getProcessorMatchExtension (Core.processors core) ext).
Proof.
  intros Hin.
  destruct (Core.getProcessorMatchExtension (Core.processors core) ext) eqn:Hnone;
    [by eexists|].
  apply getProcessorMatchExtension_None in Hnone.
  unfold Engine.collect_availableExtensions in Hin.
  rewrite foldl_app_concat in Hin. simpl in Hin.
  apply elem_of_concat in Hin as (exts & Hext & Hexts).
  apply list_elem_of_fmap in Hexts as (p & -> & Hp).
  rewrite Forall_forall in Hnone. by destruct (Hnone p Hp).
Qed.

(** Given a path instead of an extension, [executeOnText] and [fixText] do
    what they do for the extension [path.extname] finds in it, whenever
    that extension starts with "."; what they are fulfilled with is an
    array of one result. *)
Theorem text_operations_take_a_path eng text ext :
  Engine.starts_with_dot ext = false →
  Engine.starts_with_dot (path_extname ext) = true →
  executeOnText eng text ext = executeOnText eng text (path_extname ext) ∧
  fixText eng text ext = fixText eng text (path_extname ext) ∧
  (∀ run rs, executeOnText eng text ext = Return run →
             Core.promise run = Fulfilled rs → length rs = 1) ∧
  (∀ run rs, fixText eng text ext = Return run →
             Core.promise run = Fulfilled rs → length rs = 1).
Proof.
  intros Hdot Hext.
  assert (Engine.actualExt path_extname ext = path_extname ext) as Ha
    by (unfold Engine.actualExt; by rewrite Hdot).
  assert (Engine.actualExt path_extname (path_extname ext) = path_extname ext) as Ha'
    by (unfold Engine.actualExt; by rewrite Hext).
  unfold Engine.executeOnText, Engine.fixText. rewrite Ha, Ha'.
  split; [done|]. split; [done|].
  split; intros run rs; case_decide; try discriminate; unfold Engine.in_singleton.
  - destruct (Core.lintText _ _ _ _) as [run'|]; [|discriminate].
    intros [= <-]. simpl. intros Hrs.
    by apply then_value_fulfilled in Hrs as (r & _ & ->).
  - destruct (Core.fixText _ _ _ _ _) as [run'|]; [|discriminate].
    intros [= <-]. simpl. intros Hrs.
    by apply then_value_fulfilled in Hrs as (r & _ & ->).
Qed.

End MoreEngineProperties.

(** * Error results *)

Lemma existsb_isErrorMessage (ms : list TextLintMessage) :
  existsb Engine.isErrorMessage ms = true ↔ ∃ m, m ∈ ms ∧ severity m = 2.
Proof.
  rewrite existsb_exists. unfold Engine.isErrorMessage. split.
  - intros (m & Hin & Hm). exists m. split; [by apply list_elem_of_In|].
    by apply Nat.eqb_eq.
  - intros (m & Hin & Hm). exists m. split; [by apply list_elem_of_In|].
    by apply Nat.eqb_eq.
Qed.

Lemma isErrorResults_Return (results : list TextLintResult) :
  Forall (λ r, is_Some (messages r)) results →
  ∃ b, Engine.isErrorResults results = Return b ∧
       (b = true ↔ ∃ r ms m, r ∈ results ∧ messages r = Some ms ∧
                             m ∈ ms ∧ severity m = 2).
Proof.
  induction 1 as [|r results [ms Hms] _ (b & Hb & Hiff)]; simpl.
  - exists false. split; [done|]. split; [done|].
    intros (r & ms & m & Hr & _). by apply elem_of_nil in Hr.
  - rewrite Hms. destruct (existsb Engine.isErrorMessage ms) eqn:Hex.
    + exists true. split; [done|]. split; [|done]. intros _.
      apply existsb_isErrorMessage in Hex as (m & Hm & Hsev).
      exists r, ms, m. repeat split; try done. by left.
    + exists b. split; [done|]. rewrite Hiff. split.
      * intros (r' & ms' & m & Hr' & ?). exists r', ms', m. split; [by right|done].
      * intros (r' & ms' & m & Hr' & Hms' & Hm & Hsev).
        apply elem_of_cons in Hr' as [->|Hr']; [|by exists r', ms', m].
        rewrite Hms in Hms'. injection Hms' as <-.
        assert (existsb Engine.isErrorMessage ms = true) as Hex'
          by (apply existsb_isErrorMessage; eauto).
        congruence.
Qed.

(** On results that all have their [messages], [isErrorResults] returns,
    and returns true exactly when some message of some result has severity
    2; it throws only when a result has no [messages]. *)
Theorem isErrorResults_finds_errors (results : list TextLintResult) :
  (Forall (λ r, is_Some (messages r)) results →
     ∃ b, Engine.isErrorResults results = Return b ∧
          (b = true ↔ ∃ r ms m, r ∈ results ∧ messages r = Some ms ∧
                                m ∈ ms ∧ severity m = 2)) ∧
  (∀ e, Engine.isErrorResults results = Throw e →
        ∃ r, r ∈ results ∧ messages r = None).
Proof.
  split; [apply isErrorResults_Return|].
  - induction results as [|r results IH]; simpl; [discriminate|].
    intros e. destruct (messages r) as [ms|] eqn:Hms.
    + destruct (existsb Engine.isErrorMessage ms); [discriminate|].
      intros He. destruct (IH e He) as (r' & Hr' & Hnone).
      exists r'. split; [by right|done].
    + intros _. exists r. split; [by left|done].
Qed.

Section ErrorResultsOfLint.

Context {AST Config RuleCreator : Type}.
Implicit Types (core : @Core.TextlintCore AST Config RuleCreator).
Implicit Types (eng : @Engine.TextLintEngine AST Config RuleCreator).

Variable LinterTask_process : @Core.TaskArgs AST Config RuleCreator → TaskRun.
Variable path_resolve : string → string.
Variable path_extname : string → string.
Variable readFileSync : string → Completion string.
Variable findFiles : list string → list string → Completion (list string).

(** A fulfilled lint has its [messages]. *)
Lemma lint_fulfilled_has_messages core (p : option (@Core.Processor AST)) text ext fp run r :
  Core._lintByProcessor LinterTask_process core p text ext fp = Return run →
  Core.promise run = Fulfilled r → is_Some (messages r).
Proof.
  destruct p as [proc|]; [|discriminate]. rewrite lint_promise. intros [= <-]. simpl.
  destruct (ending _); [|discriminate|discriminate].
  unfold Core.lint_complete.
  destruct (Core.postProcess _ _ _) as [post|]; [|discriminate].
  destruct (Core.lint_finish ext post) as [r'|e] eqn:Hfin; [|discriminate].
  intros [= <-]. by apply lint_finish_Return in Hfin as (_ & ? & _).
Qed.

(** [isErrorResults] does not throw on what [executeOnFiles] or
    [executeOnText] is fulfilled with. *)
Theorem isErrorResults_accepts_lint_results eng :
  (∀ files order vs,
     NoDup order →
     Engine.executeOnFiles LinterTask_process path_resolve path_extname readFileSync
       findFiles eng files order = Return (Fulfilled vs) →
     ∃ b, Engine.isErrorResults (Engine.filled vs) = Return b) ∧
  (∀ text ext run rs,
     Engine.executeOnText LinterTask_process path_extname eng text ext = Return run →
     Core.promise run = Fulfilled rs →
     ∃ b, Engine.isErrorResults rs = Return b).
Proof.
  split.
  - intros files order vs Hnd. unfold Engine.executeOnFiles.
    destruct (Engine.lint_results _ _ _ _ _ _ _) as [runs|] eqn:Hruns; [|discriminate].
    intros [= Hall]. apply all_runs_sound in Hall; [|done].
    unfold Engine.lint_results in Hruns.
    destruct (findFiles files (Engine.availableExtensions eng)) as [targets|];
      [|discriminate].
    apply map_throwing_Return in Hruns.
    destruct (isErrorResults_Return (Engine.filled vs)) as (b & Hb & _);
      [|by exists b].
    clear Hnd. revert targets Hruns.
    induction Hall as [|run v runs vs (r & Hr & ->) _ IH]; intros targets Htargets.
    + constructor.
    + inversion Htargets as [|file ? targets' ? Hfile Hrest]; subst.
      unfold Engine.filled. simpl. constructor; [|by apply (IH targets')].
      unfold Core.lintFile in Hfile.
      destruct (readFileSync _); [|discriminate].
      by apply (lint_fulfilled_has_messages _ _ _ _ _ _ _ Hfile Hr).
  - intros text ext run rs. unfold Engine.executeOnText.
    case_decide; [discriminate|]. unfold Engine.in_singleton, Core.lintText.
    destruct (Core._lintByProcessor _ _ _ _ _ _) as [run'|] eqn:Hrun; [|discriminate].
    intros [= <-]. simpl. intros Hrs.
    apply then_value_fulfilled in Hrs as (r & Hr & ->).
    destruct (isErrorResults_Return [r]) as (b & Hb & _); [|by exists b].
    constructor; [|constructor].
    by apply (lint_fulfilled_has_messages _ _ _ _ _ _ _ Hrun Hr).
Qed.

End ErrorResultsOfLint.

(** * The fixer's report and its writes *)

Lemma append_assoc (s1 s2 s3 : string) :
  String.append (String.append s1 s2) s3 = String.append s1 (String.append s2 s3).
Proof.
  induction s1 as [|c s1 IH]; [reflexivity|].
  change (String c (String.append (String.append s1 s2) s3) =
          String c (String.append s1 (String.append s2 s3))).
  by rewrite IH.
Qed.

Lemma append_empty_r (s : string) : String.append s "" = s.
Proof.
  induction s as [|c s IH]; [reflexivity|].
  change (String c (String.append s "") = String c s). by rewrite IH.
Qed.

Lemma append_is_empty (s1 s2 : string) :
  String.append s1 s2 = "" ↔ s1 = "" ∧ s2 = "".
Proof.
  destruct s1 as [|c s1].
  - change (s2 = "" ↔ "" = "" ∧ s2 = ""). by split; [|intros [_ ?]].
  - change (String c (String.append s1 s2) = "" ↔ String c s1 = "" ∧ s2 = "").
    by split; [|intros [? _]].
Qed.

Lemma concat_is_nil {A} (ls : list (list A)) :
  concat ls = [] ↔ Forall (λ l, l = []) ls.
Proof.
  induction ls as [|l ls IH]; simpl; [by split; [constructor|]|].
  split.
  - intros Happ. apply app_eq_nil in Happ as [-> Hls]. constructor; [done|by apply IH].
  - inversion 1 as [|? ? -> Hls]; subst. by apply IH.
Qed.

Section FixerProperties.

Variable fatal : TextLintMessage → bool.

#[local] Abbreviation format_message := (Fixer.format_message fatal).
#[local] Abbreviation format_result := (Fixer.format_result fatal).
#[local] Abbreviation line_of := (Fixer.line_of fatal).
#[local] Abbreviation lines_of results :=
  (concat ((λ r, line_of r <$> fr_applyingMessages r) <$> results)).
#[local] Abbreviation joined lines := (foldr String.append ""%string lines).

Lemma format_message_appends result output m :
  format_message result output m = String.append output (line_of result m).
Proof.
  unfold Fixer.line_of, Fixer.format_message. cbv zeta.
  rewrite !append_assoc. reflexivity.
Qed.

Lemma joined_app (l1 l2 : list string) :
  joined (l1 ++ l2) = String.append (joined l1) (joined l2).
Proof.
  induction l1 as [|x l1 IH]; simpl; [done|]. by rewrite IH, append_assoc.
Qed.

Lemma format_messages_append result output ms :
  foldl (format_message result) output ms =
  String.append output (joined (line_of result <$> ms)).
Proof.
  revert output. induction ms as [|m ms IH]; intros output; simpl.
  - by rewrite append_empty_r.
  - by rewrite IH, format_message_appends, append_assoc.
Qed.

Lemma format_results_append results output total :
  foldl format_result (output, total) results =
  (String.append output (joined (lines_of results)),
   total + length (lines_of results)).
Proof.
  revert output total. induction results as [|r results IH]; intros output total; simpl.
  - by rewrite append_empty_r, Nat.add_0_r.
  - unfold Fixer.format_result at 2. simpl.
    rewrite IH, format_messages_append, joined_app, append_assoc.
    rewrite length_app, length_fmap. f_equal. rewrite <- Nat.add_assoc. reflexivity.
Qed.

(** The report of [format] is one line per applied message, the results in
    their order and the messages of each in theirs, and, when there is at
    least one line, an empty line, a blank line and "Fixed n problem" with
    n the number of lines, plus "s" unless n is 1. *)
Theorem format_counts_its_lines (results : list TextLintFixResult) :
  let lines := concat ((λ r, line_of r <$> fr_applyingMessages r) <$> results) in
  let total := length lines in
  Fixer.format fatal results =
  String.append (foldr String.append ""%string lines)
    (if decide (0 < total)
     then (Fixer.newline ++ Fixer.newline ++ "Fixed " ++ pretty total ++ " problem" ++
           (if decide (total ≠ 1) then "s" else ""))%string
     else ""%string).
Proof.
  intros lines total. unfold Fixer.format. rewrite format_results_append. simpl.
  fold lines. fold total. case_decide; [done|]. by rewrite append_empty_r.
Qed.

(** [format] returns the empty string exactly when no result has an
    applied message. *)
Theorem format_empty_without_fixes (results : list TextLintFixResult) :
  Fixer.format fatal results = ""%string ↔
  Forall (λ r, fr_applyingMessages r = []) results.
Proof.
  unfold Fixer.format. rewrite format_results_append. simpl.
  assert (lines_of results = [] ↔ Forall (λ r, fr_applyingMessages r = []) results)
    as Hnil.
  { rewrite concat_is_nil, Forall_fmap. apply Forall_iff. intros r. simpl.
    split; [apply fmap_nil_inv | by intros ->]. }
  rewrite <- Hnil. destruct (lines_of results) as [|x lines] eqn:Hlines; simpl.
  - done.
  - split; [|done].
    intros Happ. apply append_is_empty in Happ as [_ Happ].
    apply append_is_empty in Happ as [Hnewline _].
    unfold Fixer.newline in Hnewline. discriminate.
Qed.

End FixerProperties.

Section FixerWrites.

(** A file system: its states, what [fs.writeFileSync] does with a path
    that is a string, what a state holds for a path, and which paths name
    the same file. *)
Variable FS : Type.
Variable fs_write : FS → string → string → FS * option JsError.
Variable fs_read : FS → string → option string.
Variable same_file : string → string → bool.

#[local] Abbreviation overWriteResult := (Fixer.overWriteResult FS fs_write).
#[local] Abbreviation forEach_overWriteResult :=
  (Fixer.forEach_overWriteResult FS fs_write).
#[local] Abbreviation write := (Fixer.write FS fs_write).

(** The results whose path names the file of [p]. *)
#[local] Abbreviation writes_to p :=
  (λ r : TextLintFixResult,
     match fr_filePath r with Str q => same_file q p | _ => false end = true).

Lemma forEach_overWriteResult_app (l1 l2 : list TextLintFixResult) (fs fs1 : FS) :
  forEach_overWriteResult l1 fs = (fs1, None) →
  forEach_overWriteResult (l1 ++ l2) fs = forEach_overWriteResult l2 fs1.
Proof.
  revert fs. induction l1 as [|r l1 IH]; intros fs; simpl.
  - by intros [= ->].
  - destruct (overWriteResult r fs) as [fs' [e|]]; [discriminate|apply IH].
Qed.

Lemma write_forEach (results : list TextLintFixResult) (fs fs' : FS) :
  write results fs = (fs', Return true) ↔ forEach_overWriteResult results fs = (fs', None).
Proof.
  unfold Fixer.write.
  destruct (forEach_overWriteResult results fs) as [fs'' [e|]]; split; congruence.
Qed.

(** A [forEach] that ends without an exception wrote every result, to a
    path that is a string. *)
Lemma forEach_overWriteResult_None (results : list TextLintFixResult) (fs fs' : FS) :
  forEach_overWriteResult results fs = (fs', None) →
  Forall (λ r, ∃ p, fr_filePath r = Str p) results.
Proof.
  revert fs. induction results as [|r results IH]; intros fs; simpl; [constructor|].
  destruct (overWriteResult r fs) as [fs1 [e|]] eqn:Hr; [discriminate|].
  intros Hrest. constructor; [|by apply (IH fs1)].
  unfold Fixer.overWriteResult, Fixer.writeFileSync in Hr.
  destruct (fr_filePath r) as [| |p]; [discriminate|discriminate|by exists p].
Qed.

Section LastResultWins.

(** A successful write is read back under every path of the file written,
    and leaves every other file as it was. *)
Hypothesis read_after_write : ∀ fs q data fs' p,
  fs_write fs q data = (fs', None) → same_file q p = true →
  fs_read fs' p = Some data.
Hypothesis read_other_file : ∀ fs q data fs' p,
  fs_write fs q data = (fs', None) → same_file q p = false →
  fs_read fs' p = fs_read fs p.

Lemma forEach_overWriteResult_reads (results : list TextLintFixResult) (fs fs' : FS) :
  forEach_overWriteResult results fs = (fs', None) →
  ∀ p, fs_read fs' p =
       match last (filter (writes_to p) results) with
       | Some r => Some (fr_output r)
       | None => fs_read fs p
       end.
Proof.
  revert fs. induction results as [|r results IH]; intros fs; simpl.
  - by intros [= ->].
  - destruct (overWriteResult r fs) as [fs1 [e|]] eqn:Hr; [discriminate|].
    intros Hrest p. rewrite (IH fs1 Hrest p), filter_cons.
    unfold Fixer.overWriteResult, Fixer.writeFileSync in Hr.
    destruct (fr_filePath r) as [| |q]; [discriminate|discriminate|].
    destruct (same_file q p) eqn:Hsame.
    + rewrite decide_True by done.
      destruct (filter _ results) as [|x xs] eqn:Hf; simpl.
      * by apply (read_after_write fs q).
      * destruct (last (x :: xs)) eqn:Hlast; [done|]. by apply last_None in Hlast.
    + rewrite decide_False by done.
      destruct (last (filter _ results)); [done|].
      by apply (read_other_file fs q (fr_output r)).
Qed.

(** On a file system where a file written is read back under each of its
    paths and no other file changes: when [write] returns, every result had
    a string for [filePath], and every file holds the output of the last
    result written to it, under whichever of its paths; a file no result
    was written to is as it was. *)
Theorem write_last_result_wins (results : list TextLintFixResult) (fs fs' : FS) :
  write results fs = (fs', Return true) →
  Forall (λ r, ∃ p, fr_filePath r = Str p) results ∧
  ∀ p, fs_read fs' p =
       match last (filter (λ r, match fr_filePath r with
                                | Str q => same_file q p
                                | _ => false
                                end = true) results) with
       | Some r => Some (fr_output r)
       | None => fs_read fs p
       end.
Proof.
  intros Hwrite. apply write_forEach in Hwrite. split.
  - by apply (forEach_overWriteResult_None results fs fs').
  - by apply forEach_overWriteResult_reads.
Qed.

End LastResultWins.

(** [write] stops at the first result whose write throws, and throws what
    that write throws: the results before it are written, those after it
    are not, whatever they are. A result whose [filePath] is no string is
    such a result: its write throws a TypeError and changes nothing. *)
Theorem write_stops_at_first_error (before after_ : list TextLintFixResult)
    (r : TextLintFixResult) (fs fs1 : FS) :
  write before fs = (fs1, Return true) →
  (∀ fs2 e, overWriteResult r fs1 = (fs2, Some e) →
     write (before ++ r :: after_) fs = (fs2, Throw e)) ∧
  ((∀ p, fr_filePath r ≠ Str p) →
     write (before ++ r :: after_) fs =
       (fs1, Throw (TypeError "path must be a string or Buffer"))).
Proof.
  intros Hbefore. apply write_forEach in Hbefore.
  assert (∀ fs2 e, overWriteResult r fs1 = (fs2, Some e) →
            write (before ++ r :: after_) fs = (fs2, Throw e)) as Hstop.
  { intros fs2 e Hr. unfold Fixer.write.
    rewrite (forEach_overWriteResult_app _ _ _ _ Hbefore). simpl. by rewrite Hr. }
  split; [done|]. intros Hnone. apply Hstop.
  unfold Fixer.overWriteResult, Fixer.writeFileSync.
  destruct (fr_filePath r) as [| |p]; [done|done|]. by destruct (Hnone p).
Qed.

End FixerWrites.



Section WritingFixedText.

Context {AST Config RuleCreator : Type}.
Implicit Types (eng : @Engine.TextLintEngine AST Config RuleCreator).

Variable FixerTask_process : @Core.TaskArgs AST Config RuleCreator → TaskRun.
Variable applyFixes :
  @Core.SourceCode AST → option (list TextLintMessage) → Completion Applied.
Variable path_extname : string → string.
Variable FS : Type.
Variable fs_write : FS → string → string → FS * option JsError.

(** The result of the engine's [fixText] has no [filePath] when no rule has
    a fixer, so [write] on it throws and writes nothing. *)
Theorem write_after_fixText_without_fixers eng text ext run rs (fs : FS) :
  (∀ kr, kr ∈ Core.rules (Engine.textLint eng) → Core.fixer kr.2 = None) →
  Engine.fixText FixerTask_process applyFixes path_extname eng text ext = Return run →
  Core.promise run = Fulfilled rs →
  Fixer.write FS fs_write rs fs =
    (fs, Throw (TypeError "path must be a string or Buffer")).
Proof.
  intros Hnone. apply no_fixer_rules in Hnone. unfold Engine.fixText.
  case_decide; [discriminate|]. unfold Engine.in_singleton, Core.fixText.
  destruct (Core.getProcessorMatchExtension _ _) as [proc|]; [|discriminate].
  rewrite fixProcess_Return, Hnone. intros [= <-]. simpl. by intros [= <-].
Qed.

End WritingFixedText.

(** * The further properties at the plain-text setting *)

Example format_report :
  Fixer.format Sample.never_fatal [Sample.fixed_once; Sample.fixed_nowhere; Sample.fixed_again] =
  ("Fixed✔ a.txt: line 1, col 1, Error - b found (b-to-aa)" ++ Fixer.newline ++
   "Fixed✔ a.txt: line 1, col 1, Error - doubled a (no-double-a)" ++ Fixer.newline ++
   Fixer.newline ++ Fixer.newline ++ "Fixed 2 problems")%string.
Proof. vm_compute. reflexivity. Qed.

Lemma disabled_rules_never_run_witness :
  ∃ run t,
    Core._lintByProcessor Sample.LinterTask_process
      (Core.setupRules Sample.rule_set Sample.warn_off Sample.core)
      (Some (Sample.TextProcessor ())) "aab" ".txt" Undefined = Return run ∧
    t ∈ Core.tasks run ∧
    Core.t_rules t =
      filter (λ kr, Sample.warn_off !! kr.1 ≠ Some OptFalse) Sample.rule_set ∧
    Core.t_rulesConfig t = Sample.warn_off.
Proof.
  eexists. eexists. split; [reflexivity|]. split; [left|].
  exact (proj1 (disabled_rules_never_run Sample.LinterTask_process
                  Sample.FixerTask_process Sample.applyFixes Sample.core
                  Sample.rule_set Sample.warn_off (Some (Sample.TextProcessor ()))
                  "aab" ".txt" Undefined)
               _ _ eq_refl (list_elem_of_here _ _)).
Defined.

Lemma lint_outcome_follows_task_witness :
  (∃ run,
     Core._lintByProcessor Sample.LinterTask_process Sample.crashing_core
       (Some (Sample.TextProcessor ())) "aab" ".txt" Undefined = Return run ∧
     Core.promise run = Rejected (Error "boom")) ∧
  (∃ run,
     Core._lintByProcessor Sample.LinterTask_process Sample.core
       (Some (Sample.ThrowingProcessor ())) "aab" ".md" Undefined = Return run ∧
     Core.promise run = Rejected (Error "post")).
Proof.
  split.
  - eexists. split; [reflexivity|].
    apply (proj2 (proj1 (lint_outcome_follows_task Sample.LinterTask_process
                           Sample.crashing_core (Sample.TextProcessor ()) "aab" ".txt"
                           Undefined _ eq_refl) (Error "boom"))).
    left. reflexivity.
  - eexists. split; [reflexivity|].
    apply (proj2 (proj1 (lint_outcome_follows_task Sample.LinterTask_process
                           Sample.core (Sample.ThrowingProcessor ()) "aab" ".md"
                           Undefined _ eq_refl) (Error "post"))).
    right. split; reflexivity.
Defined.


Lemma file_path_given_to_tasks_witness :
  ∃ run t,
    Core.fixFile Sample.FixerTask_process Sample.applyFixes Sample.path_resolve
      NodePath.extname Sample.readFileSync Sample.core "a.txt" = Return run ∧
    t ∈ Core.tasks run ∧
    Core.sc_ext (Core.t_sourceCode t) = NodePath.extname (Sample.path_resolve "a.txt") ∧
    Core.sc_filePath (Core.t_sourceCode t) = Str "a.txt".
Proof.
  eexists. eexists. split; [reflexivity|]. split; [left|].
  exact (proj2 (file_path_given_to_tasks Sample.LinterTask_process
                  Sample.FixerTask_process Sample.applyFixes Sample.path_resolve
                  NodePath.extname Sample.readFileSync Sample.core "a.txt")
               _ _ eq_refl (list_elem_of_here _ _)).
Defined.

Lemma fix_result_accumulates_witness :
  ∃ run r,
    Core._fixProcess Sample.FixerTask_process Sample.applyFixes Sample.core
      (Some (Sample.TextProcessor ())) "aab" ".txt" Undefined = Return run ∧
    Core.promise run = Fulfilled r ∧
    ∃ steps : list (TextLintResult * Applied),
      length steps = 2 ∧
      fr_applyingMessages r = concat ((λ pa, ap_applyingMessages pa.2) <$> steps) ∧
      fr_filePath r =
        match last steps with
        | Some pa => filePath pa.1
        | None => Undefined
        end.
Proof.
  eexists. eexists. split; [reflexivity|]. split; [reflexivity|].
  destruct (fix_result_accumulates Sample.FixerTask_process Sample.applyFixes
              Sample.core (Sample.TextProcessor ()) "aab" ".txt" Undefined
              _ _ eq_refl eq_refl) as (steps & Hsteps & Ha & _ & _ & Hfp).
  exists steps. split; [|split; [exact Ha | exact Hfp]].
  apply Forall2_length in Hsteps. rewrite <- Hsteps. reflexivity.
Defined.

Lemma fix_unchanged_without_fixes_witness :
  ∃ run r,
    Core._fixProcess Sample.FixerTask_process Sample.applyFixes Sample.core
      (Some (Sample.TextProcessor ())) "zzz" ".txt" Undefined = Return run ∧
    length (Core.tasks run) = 2 ∧
    Core.promise run = Fulfilled r ∧ fr_output r = "zzz".
Proof.
  eexists. eexists. split; [reflexivity|]. split; [reflexivity|].
  split; [reflexivity|].
  refine (proj2 (fix_unchanged_without_fixes Sample.FixerTask_process Sample.applyFixes
                   Sample.core (Sample.TextProcessor ()) "zzz" ".txt" Undefined
                   _ eq_refl _) _ eq_refl).
  intros t post applied Ht Hpost Happlied.
  apply elem_of_cons in Ht as [->|Ht].
  { vm_compute in Hpost. injection Hpost as <-.
    vm_compute in Happlied. injection Happlied as <-. reflexivity. }
  apply elem_of_cons in Ht as [->|Ht].
  { vm_compute in Hpost. injection Hpost as <-.
    vm_compute in Happlied. injection Happlied as <-. reflexivity. }
  apply elem_of_nil in Ht. destruct Ht.
Defined.


Lemma no_targets_no_results_witness :
  Sample.findFiles [] (Engine.availableExtensions Sample.engine) = Return [] ∧
  Engine.executeOnFiles Sample.LinterTask_process Sample.path_resolve NodePath.extname
    Sample.readFileSync Sample.findFiles Sample.engine [] [] =
  Return (Fulfilled []).
Proof.
  assert (Sample.findFiles [] (Engine.availableExtensions Sample.engine) =
          Return []) as Hnone by reflexivity.
  split; [exact Hnone|].
  exact (proj1 (no_targets_no_results Sample.LinterTask_process
                  Sample.FixerTask_process Sample.applyFixes Sample.path_resolve
                  NodePath.extname Sample.readFileSync Sample.findFiles Sample.engine
                  [] [] Hnone)).
Defined.

Lemma batch_throws_first_throw_witness :
  Engine.executeOnFiles Sample.LinterTask_process Sample.path_resolve NodePath.extname
    Sample.readFileSync Sample.findFiles Sample.engine ["a.txt"; "nope.txt"] [] =
    Throw (Error "ENOENT: no such file or directory, stat 'nope.txt'") ∧
  Engine.executeOnFiles Sample.LinterTask_process Sample.path_resolve NodePath.extname
    Sample.readFileSync Sample.findFiles Sample.xyz_engine ["a.txt"; "c.xyz"; "b.md"] [] =
    Throw (AssertionError "processor is not found for .xyz").
Proof.
  split.
  - apply (proj2 (proj1 (batch_throws_first_throw Sample.LinterTask_process
                           Sample.FixerTask_process Sample.applyFixes Sample.path_resolve
                           NodePath.extname Sample.readFileSync Sample.findFiles
                           Sample.engine ["a.txt"; "nope.txt"] [] _))).
    left. vm_compute. reflexivity.
  - apply (proj2 (proj1 (batch_throws_first_throw Sample.LinterTask_process
                           Sample.FixerTask_process Sample.applyFixes Sample.path_resolve
                           NodePath.extname Sample.readFileSync Sample.findFiles
                           Sample.xyz_engine ["a.txt"; "c.xyz"; "b.md"] [] _))).
    right. exists ["a.txt"], "c.xyz", ["b.md"].
    split; [vm_compute; reflexivity|]. split; [reflexivity|].
    constructor; [|constructor]. eexists. reflexivity.
Defined.

Lemma batch_all_or_nothing_witness :
  NoDup [0; 1] ∧
  Engine.fixFiles Sample.FixerTask_process Sample.applyFixes Sample.path_resolve
    NodePath.extname Sample.readFileSync Sample.findFiles Sample.crashing_engine
    ["a.txt"; "b.md"] [0; 1] ≠ Return (Fulfilled []).
Proof.
  assert (NoDup [0; 1]) as Hnd.
  { apply (bool_decide_unpack _). vm_compute. exact I. }
  split; [exact Hnd|].
  refine (proj2 (batch_all_or_nothing Sample.LinterTask_process
                   Sample.FixerTask_process Sample.applyFixes Sample.path_resolve
                   NodePath.extname Sample.readFileSync Sample.findFiles
                   Sample.crashing_engine ["a.txt"; "b.md"] [0; 1] Hnd)
                _ 0 _ [] eq_refl eq_refl _).
  intros r Hr. vm_compute in Hr. discriminate Hr.
Defined.

Lemma batch_rejects_with_first_rejection_witness :
  ∃ runs,
    Engine.fix_results Sample.FixerTask_process Sample.applyFixes Sample.path_resolve
      NodePath.extname Sample.readFileSync Sample.findFiles Sample.crashing_engine
      ["a.txt"; "b.md"] = Return runs ∧
    Engine.fixFiles Sample.FixerTask_process Sample.applyFixes Sample.path_resolve
      NodePath.extname Sample.readFileSync Sample.findFiles Sample.crashing_engine
      ["a.txt"; "b.md"] [1; 0] = Return (Rejected (Error "boom")) ∧
    ∃ before i after_ run,
      [1; 0] = before ++ i :: after_ ∧ runs !! i = Some run ∧
      Core.promise run = Rejected (Error "boom") ∧
      ∀ j run' e', j ∈ before → runs !! j = Some run' →
                   Core.promise run' ≠ Rejected e'.
Proof.
  eexists. split; [reflexivity|].
  assert (Engine.fixFiles Sample.FixerTask_process Sample.applyFixes Sample.path_resolve
            NodePath.extname Sample.readFileSync Sample.findFiles Sample.crashing_engine
            ["a.txt"; "b.md"] [1; 0] = Return (Rejected (Error "boom"))) as Hrej
    by (vm_compute; reflexivity).
  split; [exact Hrej|].
  exact (proj2 (batch_rejects_with_first_rejection Sample.LinterTask_process
                  Sample.FixerTask_process Sample.applyFixes Sample.path_resolve
                  NodePath.extname Sample.readFileSync Sample.findFiles
                  Sample.crashing_engine ["a.txt"; "b.md"] [1; 0] (Error "boom"))
               _ eq_refl Hrej).
Defined.

Lemma text_operations_take_a_path_witness :
  Engine.starts_with_dot "docs/README.md" = false ∧
  Engine.starts_with_dot (NodePath.extname "docs/README.md") = true ∧
  Engine.executeOnText Sample.LinterTask_process NodePath.extname Sample.engine
    "aab" "docs/README.md" =
  Engine.executeOnText Sample.LinterTask_process NodePath.extname Sample.engine
    "aab" (NodePath.extname "docs/README.md").
Proof.
  split; [reflexivity|]. split; [reflexivity|].
  exact (proj1 (text_operations_take_a_path Sample.LinterTask_process
                  Sample.FixerTask_process Sample.applyFixes NodePath.extname
                  Sample.engine "aab" "docs/README.md" eq_refl eq_refl)).
Defined.

Lemma isErrorResults_finds_errors_witness :
  let results := [mkResult (Str "a.txt") (Some [Sample.report "r" "bad" None])] in
  Forall (λ r, is_Some (messages r)) results ∧
  ∃ b, Engine.isErrorResults results = Return b ∧
       (b = true ↔ ∃ r ms m, r ∈ results ∧ messages r = Some ms ∧
                             m ∈ ms ∧ severity m = 2).
Proof.
  intros results.
  assert (Forall (λ r, is_Some (messages r)) results) as Hwf.
  { constructor; [|constructor]. eexists. reflexivity. }
  split; [exact Hwf|].
  exact (proj1 (isErrorResults_finds_errors results) Hwf).
Defined.

Lemma isErrorResults_accepts_lint_results_witness :
  NoDup [1; 0] ∧
  ∃ vs,
    Engine.executeOnFiles Sample.LinterTask_process Sample.path_resolve NodePath.extname
      Sample.readFileSync Sample.findFiles Sample.engine ["a.txt"; "b.md"] [1; 0] =
    Return (Fulfilled vs) ∧
    ∃ b, Engine.isErrorResults (Engine.filled vs) = Return b.
Proof.
  assert (NoDup [1; 0]) as Hnd.
  { apply (bool_decide_unpack _). vm_compute. exact I. }
  split; [exact Hnd|]. eexists. split; [vm_compute; reflexivity|].
  apply (proj1 (isErrorResults_accepts_lint_results Sample.LinterTask_process
                  Sample.path_resolve NodePath.extname Sample.readFileSync
                  Sample.findFiles Sample.engine)
               ["a.txt"; "b.md"] [1; 0] _ Hnd).
  vm_compute. reflexivity.
Defined.

(** The sample file system is one: a file written is read back, and no
    other file changes. *)
Lemma sample_read_after_write (fs : gmap string string) q data fs' p :
  Sample.fs_write fs q data = (fs', None) → String.eqb q p = true →
  fs' !! p = Some data.
Proof.
  unfold Sample.fs_write. destruct (String.prefix "gone/" q); [discriminate|].
  intros [= <-] Hqp. apply String.eqb_eq in Hqp as ->. apply lookup_insert_eq.
Qed.

Lemma sample_read_other_file (fs : gmap string string) q data fs' p :
  Sample.fs_write fs q data = (fs', None) → String.eqb q p = false →
  fs' !! p = fs !! p.
Proof.
  unfold Sample.fs_write. destruct (String.prefix "gone/" q); [discriminate|].
  intros [= <-] Hqp. apply String.eqb_neq in Hqp. by apply lookup_insert_ne.
Qed.

Lemma write_last_result_wins_witness :
  ∃ fs',
    Fixer.write (gmap string string) Sample.fs_write
      [Sample.fixed_once; Sample.fixed_again] ∅ = (fs', Return true) ∧
    fs' !! "a.txt" = Some "a"%string ∧ fs' !! "b.txt" = None.
Proof.
  eexists. split; [reflexivity|].
  pose proof (proj2 (write_last_result_wins (gmap string string) Sample.fs_write
                       (λ fs p, fs !! p) String.eqb
                       sample_read_after_write sample_read_other_file
                       [Sample.fixed_once; Sample.fixed_again] ∅ _ eq_refl)) as Hreads.
  split; [exact (Hreads "a.txt"%string) | exact (Hreads "b.txt"%string)].
Defined.

Lemma write_stops_at_first_error_witness :
  ∃ fs1,
    Fixer.write (gmap string string) Sample.fs_write [Sample.fixed_once] ∅ =
      (fs1, Return true) ∧
    Fixer.write (gmap string string) Sample.fs_write
      ([Sample.fixed_once] ++ Sample.fixed_gone :: [Sample.fixed_again]) ∅ =
      (fs1, Throw (Error "ENOENT: no such file or directory, open 'gone/a.txt'")) ∧
    Fixer.write (gmap string string) Sample.fs_write
      ([Sample.fixed_once] ++ Sample.fixed_nowhere :: [Sample.fixed_again]) ∅ =
      (fs1, Throw (TypeError "path must be a string or Buffer")).
Proof.
  eexists. split; [reflexivity|].
  destruct (write_stops_at_first_error (gmap string string) Sample.fs_write
              [Sample.fixed_once] [Sample.fixed_again] Sample.fixed_gone ∅ _ eq_refl)
    as [Hgone _].
  destruct (write_stops_at_first_error (gmap string string) Sample.fs_write
              [Sample.fixed_once] [Sample.fixed_again] Sample.fixed_nowhere ∅ _ eq_refl)
    as [_ Hnowhere].
  split; [exact (Hgone _ _ eq_refl)|].
  apply Hnowhere. intros p Hp. discriminate Hp.
Defined.

Lemma write_after_fixText_without_fixers_witness :
  (∀ kr, kr ∈ Core.rules (Engine.textLint Sample.lint_only_engine) →
         Core.fixer kr.2 = None) ∧
  ∃ run rs,
    Engine.fixText Sample.FixerTask_process Sample.applyFixes NodePath.extname
      Sample.lint_only_engine "aab" ".txt" = Return run ∧
    Core.promise run = Fulfilled rs ∧
    Fixer.write (gmap string string) Sample.fs_write rs ∅ =
      (∅, Throw (TypeError "path must be a string or Buffer")).
Proof.
  assert (∀ kr, kr ∈ Core.rules (Engine.textLint Sample.lint_only_engine) →
                Core.fixer kr.2 = None) as Hnone.
  { intros kr Hkr.
    change (kr ∈ [("always-warn"%string, Core.mkRule Sample.always_warn None)]) in Hkr.
    apply list_elem_of_singleton in Hkr. rewrite Hkr. reflexivity. }
  split; [exact Hnone|]. eexists. eexists. split; [reflexivity|]. split; [reflexivity|].
  exact (write_after_fixText_without_fixers Sample.FixerTask_process Sample.applyFixes
           NodePath.extname (gmap string string) Sample.fs_write
           Sample.lint_only_engine "aab" ".txt" _ _ ∅ Hnone eq_refl eq_refl).
Defined.

(** * The trees of the Tasks and stalled targets *)

Lemma Promise_all_pending {A} (ps : list (Promise A)) order i :
  NoDup order → ps !! i = Some Pending →
  (∀ j e, j ∈ order → ps !! j ≠ Some (Rejected e)) →
  Promise_all ps order = Pending.
Proof.
  intros Hnd Hi Hok. destruct (Promise_all ps order) as [|vs|e] eqn:Hall; [done| |].
  - apply Promise_all_sound in Hall; [|done].
    destruct (Forall2_lookup_l _ _ _ _ _ Hall Hi) as (v & _ & r & Hr & _). discriminate.
  - by destruct (Promise_all_not_rejected ps order Hok e).
Qed.

Section TreesAndStalls.

Context {AST Config RuleCreator : Type}.
Implicit Types (core : @Core.TextlintCore AST Config RuleCreator).
Implicit Types (eng : @Engine.TextLintEngine AST Config RuleCreator).
Implicit Types (fns : @Core.ProcessorFns AST).

Variable LinterTask_process : @Core.TaskArgs AST Config RuleCreator → TaskRun.
Variable FixerTask_process : @Core.TaskArgs AST Config RuleCreator → TaskRun.
Variable applyFixes :
  @Core.SourceCode AST → option (list TextLintMessage) → Completion Applied.
Variable path_resolve : string → string.
Variable path_extname : string → string.
Variable readFileSync : string → Completion string.
Variable findFiles : list string → list string → Completion (list string).

(** The tree of the source code of every Task is the processor's parse of
    the text of that Task: in a lint, of the text given, parsed with the
    path; in a fix, of the text the step started from, parsed anew without
    a path. *)
Theorem task_tree_is_parse_of_its_text core (proc : @Core.Processor AST) text ext fp :
  let fns := Core.processor proc ext in
  (∀ run t,
     Core._lintByProcessor LinterTask_process core (Some proc) text ext fp = Return run →
     t ∈ Core.tasks run →
     Core.sc_text (Core.t_sourceCode t) = text ∧
     Core.sc_ast (Core.t_sourceCode t) = Core.preProcess fns text fp) ∧
  (∀ run t,
     Core._fixProcess FixerTask_process applyFixes core (Some proc) text ext fp =
       Return run →
     t ∈ Core.tasks run →
     Core.sc_ast (Core.t_sourceCode t) =
       Core.preProcess fns (Core.sc_text (Core.t_sourceCode t)) Undefined ∧
     Core.sc_ext (Core.t_sourceCode t) = ext ∧
     Core.sc_filePath (Core.t_sourceCode t) = fp).
Proof.
  intros fns. split; intros run t Hrun Ht.
  - by rewrite (tasks_of_lint _ _ _ _ _ _ _ _ Hrun Ht).
  - by destruct (tasks_of_fix _ _ _ _ _ _ _ _ _ Hrun Ht) as (kr & s & _ & ->).
Qed.

(** A target whose pipeline stays pending keeps [executeOnFiles] and
    [fixFiles] pending for good, unless some pipeline is rejected. *)
Theorem batch_stalls_with_a_stalled_target eng files order :
  NoDup order →
  (∀ runs i run,
     Engine.lint_results LinterTask_process path_resolve path_extname readFileSync
       findFiles eng files = Return runs →
     runs !! i = Some run → Core.promise run = Pending →
     (∀ j run' e, j ∈ order → runs !! j = Some run' → Core.promise run' ≠ Rejected e) →
     Engine.executeOnFiles LinterTask_process path_resolve path_extname readFileSync
       findFiles eng files order = Return Pending) ∧
  (∀ runs i run,
     Engine.fix_results FixerTask_process applyFixes path_resolve path_extname
       readFileSync findFiles eng files = Return runs →
     runs !! i = Some run → Core.promise run = Pending →
     (∀ j run' e, j ∈ order → runs !! j = Some run' → Core.promise run' ≠ Rejected e) →
     Engine.fixFiles FixerTask_process applyFixes path_resolve path_extname
       readFileSync findFiles eng files order = Return Pending).
Proof.
  intros Hnd. split; intros runs i run Hruns Hi Hrun Hok.
  - unfold Engine.executeOnFiles. rewrite Hruns. f_equal.
    apply (Promise_all_pending _ order i); [done| |].
    + by rewrite list_lookup_fmap, Hi, <- Hrun.
    + intros j e Hj. rewrite list_lookup_fmap.
      destruct (runs !! j) as [run'|] eqn:Hj'; [|done]. simpl.
      intros [= Hrej]. by apply (Hok j run' e).
  - unfold Engine.fixFiles. rewrite Hruns. f_equal.
    apply (Promise_all_pending _ order i); [done| |].
    + by rewrite list_lookup_fmap, Hi, <- Hrun.
    + intros j e Hj. rewrite list_lookup_fmap.
      destruct (runs !! j) as [run'|] eqn:Hj'; [|done]. simpl.
      intros [= Hrej]. by apply (Hok j run' e).
Qed.

End TreesAndStalls.

Lemma task_tree_is_parse_of_its_text_witness :
  ∃ run t,
    Core._fixProcess Sample.FixerTask_process Sample.applyFixes Sample.core
      (Some (Sample.TextProcessor ())) "aab" ".txt" (Str "a.txt") = Return run ∧
    Core.tasks run !! 1 = Some t ∧
    Core.sc_ast (Core.t_sourceCode t) =
      Core.preProcess (Core.processor (Sample.TextProcessor ()) ".txt")
        (Core.sc_text (Core.t_sourceCode t)) Undefined ∧
    Core.sc_ext (Core.t_sourceCode t) = ".txt" ∧
    Core.sc_filePath (Core.t_sourceCode t) = Str "a.txt".
Proof.
  eexists. eexists. split; [reflexivity|]. split; [reflexivity|].
  refine (proj2 (task_tree_is_parse_of_its_text Sample.LinterTask_process
                   Sample.FixerTask_process Sample.applyFixes Sample.core
                   (Sample.TextProcessor ()) "aab" ".txt" (Str "a.txt"))
                _ _ eq_refl _).
  right. left.
Defined.

Lemma batch_stalls_with_a_stalled_target_witness :
  NoDup [1; 0] ∧
  Engine.executeOnFiles Sample.LinterTask_process Sample.path_resolve NodePath.extname
    Sample.readFileSync Sample.findFiles Sample.stalling_engine ["a.txt"; "b.md"] [1; 0] =
  Return Pending.
Proof.
  assert (NoDup [1; 0]) as Hnd.
  { apply (bool_decide_unpack _). vm_compute. exact I. }
  split; [exact Hnd|].
  refine (proj1 (batch_stalls_with_a_stalled_target Sample.LinterTask_process
                   Sample.FixerTask_process Sample.applyFixes Sample.path_resolve
                   NodePath.extname Sample.readFileSync Sample.findFiles
                   Sample.stalling_engine ["a.txt"; "b.md"] [1; 0] Hnd)
                _ 0 _ eq_refl eq_refl eq_refl _).
  intros j run' e Hj Hrun' Hrej.
  destruct j as [|[|j]]; simpl in Hrun'.
  - injection Hrun' as <-. vm_compute in Hrej. discriminate Hrej.
  - injection Hrun' as <-. vm_compute in Hrej. discriminate Hrej.
  - discriminate Hrun'.
Defined.
